(** * megaeth-tn-stats: the statistics module, the client with its retry
    helper and the entry point, embedded in Rocq.

    Sources: [src/statistics.ts] (the seven aggregations),
    [src/api-client.ts] (records, [isoToUnixTimestamp], the four methods
    of the client, [retryWithBackoff]) and [src/index.ts] ([main] up to
    the statistics; what it prints is not modelled).

    Conventions of the embedding:
    - a JavaScript string is a [string] of code units below 256 (addresses
      and decimal amounts are ASCII);
    - a [bigint] is a [Z];
    - an array is a [list], its [length] a [nat];
    - a JavaScript [number] that the code computes with is [NaN] or an exact
      rational: the rounding of binary64 is not modelled, and the two
      infinities do not arise because every division of the modelled code
      has a non-zero divisor; a [number] that is a height, a count, a limit,
      a budget or a delay is a [Z];
    - a function that can throw returns a [Completion]; an awaited promise
      is a function of the world outside the program;
    - the axios instance and the date parser of the engine are parameters
      of the client: what the API answers and which strings are dates is
      not the program's to decide;
    - fields keep their names, prefixed where two records share one
      ([block_hash], [block_timestamp], [gas_totalTransactions], ...);
    - the limits of an engine (stack depth, the argument count of a spread
      call) are not modelled. *)

From Stdlib Require Import ZArith QArith Qcanon Ascii String List Lia Sorting.Permutation Sorting.Sorted.
From stdpp Require Import base tactics option list numbers strings pretty gmap sets.
From Equations Require Import Equations.

#[local] Set Warnings "-clear-no-such-hyp".

Local Open Scope string_scope.
Local Open Scope list_scope.
Local Open Scope Z_scope.

(** ** The JavaScript layer *)

Module Js.

(** Error instances: [name] is the constructor's name. *)
Record Error : Type := mkError { name : string; message : string }.

Definition SyntaxError (msg : string) : Error := mkError "SyntaxError" msg.
Definition RangeError (msg : string) : Error := mkError "RangeError" msg.
Definition new_Error (msg : string) : Error := mkError "Error" msg.

(** Completion of a synchronous computation that may throw an Error. *)
Inductive Completion (A : Type) : Type :=
  | Return (a : A)
  | Throw (e : Error).
Arguments Return {A} a.
Arguments Throw {A} e.

#[global] Instance Completion_ret : MRet Completion := fun _ a => Return a.
#[global] Instance Completion_bind : MBind Completion := fun _ _ f m =>
  match m with
  | Return a => f a
  | Throw e => Throw e
  end.

(** [try { m } catch { h }] *)
Definition try_catch {A} (m : Completion A) (h : A) : A :=
  match m with
  | Return a => a
  | Throw _ => h
  end.

(** *** Strings *)

Definition code (c : ascii) : N := N_of_ascii c.

(** WhiteSpace and LineTerminator code units below 256:
    TAB, LF, VT, FF, CR, SP, NBSP. *)
Definition isStrWhiteSpaceChar (c : ascii) : bool :=
  let n := code c in
  ((9 <=? n) && (n <=? 13) || (n =? 32) || (n =? 160))%N.

Fixpoint trimStart (s : string) : string :=
  match s with
  | String c r => if isStrWhiteSpaceChar c then trimStart r else s
  | EmptyString => EmptyString
  end.

Fixpoint trimEnd (s : string) : string :=
  match s with
  | String c r =>
      match trimEnd r with
      | EmptyString => if isStrWhiteSpaceChar c then EmptyString else String c EmptyString
      | r' => String c r'
      end
  | EmptyString => EmptyString
  end.

Definition trim (s : string) : string := trimEnd (trimStart s).

(** [String.prototype.toLowerCase] on code units below 256: A-Z and the
    Latin-1 capitals U+00C0-U+00DE (U+00D7 excepted) move up by 32. *)
Definition toLowerCaseChar (c : ascii) : ascii :=
  let n := code c in
  if ((65 <=? n) && (n <=? 90) || (192 <=? n) && (n <=? 222) && negb (n =? 215))%N
  then ascii_of_N (n + 32) else c.

Fixpoint toLowerCase (s : string) : string :=
  match s with
  | String c r => String (toLowerCaseChar c) (toLowerCase r)
  | EmptyString => EmptyString
  end.

(** Truthiness of a string: the empty string is falsy. *)
Definition truthy (s : string) : bool :=
  match s with
  | EmptyString => false
  | String _ _ => true
  end.

(** [x || d] where [x] is a string or absent ([undefined], [null]). *)
Definition or_else (x : option string) (d : string) : string :=
  match x with
  | Some s => if truthy s then s else d
  | None => d
  end.

(** *** BigInt *)

(** Value of a digit in the given radix. *)
Definition digitValue (radix : Z) (c : ascii) : option Z :=
  let n := Z.of_N (code c) in
  let v :=
    if (48 <=? n) && (n <=? 57) then Some (n - 48)
    else if (97 <=? n) && (n <=? 122) then Some (n - 87)
    else if (65 <=? n) && (n <=? 90) then Some (n - 55)
    else None in
  match v with
  | Some d => if d <? radix then Some d else None
  | None => None
  end.

(** The mathematical value of a digit string; [None] when a character is
    not a digit of the radix. *)
Fixpoint digitsValue (radix : Z) (acc : Z) (s : string) : option Z :=
  match s with
  | EmptyString => Some acc
  | String c r =>
      match digitValue radix c with
      | Some d => digitsValue radix (acc * radix + d) r
      | None => None
      end
  end.

(** One or more digits. *)
Definition digits1 (radix : Z) (s : string) : option Z :=
  match s with
  | EmptyString => None
  | _ => digitsValue radix 0 s
  end.

(** StringToBigInt (ECMA-262): the string is trimmed; the empty string is
    0n; otherwise it must be a StrIntegerLiteral: decimal digits with an
    optional sign, or unsigned digits after [0x], [0o] or [0b] (either
    case). Anything else ("1.5", "1e3", "abc", "-0x1") is no literal. *)
Definition StringToBigInt (str : string) : option Z :=
  match trim str with
  | EmptyString => Some 0
  | String "0" (String ("x" | "X") r) => digits1 16 r
  | String "0" (String ("o" | "O") r) => digits1 8 r
  | String "0" (String ("b" | "B") r) => digits1 2 r
  | String "+" r => digits1 10 r
  | String "-" r => Z.opp <$> digits1 10 r
  | s => digits1 10 s
  end.

(** [BigInt(s)] for a string [s]: a SyntaxError when [s] is no literal. *)
Definition BigInt (s : string) : Completion Z :=
  match StringToBigInt s with
  | Some z => Return z
  | None => Throw (SyntaxError ("Cannot convert " +:+ s +:+ " to a BigInt"))
  end.

(** [a / b] on bigints: truncating; a zero divisor is a RangeError. *)
Definition bigint_div (a b : Z) : Completion Z :=
  if b =? 0 then Throw (RangeError "Division by zero") else Return (Z.quot a b).

(** *** Numbers *)

Inductive number : Type :=
  | NaN
  | Fin (q : Qc).

Definition of_Z (z : Z) : number := Fin (Qc_of_Z z).
Definition of_nat (n : nat) : number := of_Z (Z.of_nat n).

Definition lift2 (f : Qc -> Qc -> Qc) (x y : number) : number :=
  match x, y with
  | Fin a, Fin b => Fin (f a b)
  | _, _ => NaN
  end.

Definition add : number -> number -> number := lift2 Qcplus.
Definition sub : number -> number -> number := lift2 Qcminus.
Definition mul : number -> number -> number := lift2 Qcmult.

(** The modelled code never divides by zero; the model answers [NaN]
    there. *)
Definition div (x y : number) : number :=
  match x, y with
  | Fin a, Fin b => if decide (b = Qc_of_Z 0) then NaN else Fin (a / b)%Qc
  | _, _ => NaN
  end.

(** [Math.min(x, ...xs)] and [Math.max(x, ...xs)] on one or more
    arguments: NaN if any argument is NaN. *)
Definition min2 (x y : number) : number :=
  match x, y with
  | Fin a, Fin b => if decide (b < a)%Qc then Fin b else Fin a
  | _, _ => NaN
  end.

Definition max2 (x y : number) : number :=
  match x, y with
  | Fin a, Fin b => if decide (a < b)%Qc then Fin b else Fin a
  | _, _ => NaN
  end.

Definition Math_min (x : number) (xs : list number) : number := fold_left min2 xs x.
Definition Math_max (x : number) (xs : list number) : number := fold_left max2 xs x.

(** [Number(b)] for a bigint [b]. *)
Definition Number_of_bigint (b : Z) : number := of_Z b.

(** [Array.prototype.reduce] with an initial value. *)
Definition reduce {A B} (f : B -> A -> B) (l : list A) (init : B) : B :=
  fold_left f l init.

End Js.

Import Js.

(** ** Records of [api-client.ts] *)

(** [to] is [string | null]. [value] and [gas_price] are declared [string];
    [None] stands for a field that is absent at run time, the case the
    code's [|| '0'] guards against. *)
Record Transaction : Type := mkTransaction {
  hash : string;
  from : string;
  to : option string;
  value : option string;
  gas_price : option string;
  gas_used : string;
  gas : string;
  timestamp : string;
}.

Record Block : Type := mkBlock {
  block_hash : string;
  number : Z;
  block_timestamp : string;
  transaction_count : Z;
}.

(** ** Gas price and transaction value statistics *)

Record GasPriceStats : Type := mkGasPriceStats {
  averageGasPriceGwei : Js.number;
  minGasPriceGwei : Js.number;
  maxGasPriceGwei : Js.number;
  gas_totalTransactions : nat;
}.

Record TransactionValueStats : Type := mkTransactionValueStats {
  totalValueEth : Js.number;
  averageValueEth : Js.number;
  minValueEth : Js.number;
  maxValueEth : Js.number;
  value_totalTransactions : nat;
}.

Definition zero : Js.number := Js.of_Z 0.

(** [Number(wei) / 1e9] and [Number(wei) / 1e18] *)
Definition weiToGwei (wei : Z) : Js.number := Js.div (Number_of_bigint wei) (Js.of_Z (10 ^ 9)).
Definition weiToEth (wei : Z) : Js.number := Js.div (Number_of_bigint wei) (Js.of_Z (10 ^ 18)).

(** [transactions.map(tx => BigInt(tx.gas_price || '0')).filter(price => price > 0n)]:
    the first [BigInt] that throws ends the [map]. *)
Definition gasPricesWei (transactions : list Transaction) : Completion (list Z) :=
  prices ← mapM (fun tx => BigInt (or_else (gas_price tx) "0")) transactions;
  mret (filter (fun price => 0 < price) prices).

Definition computeAverageGasPrice (transactions : list Transaction) : Completion GasPriceStats :=
  if decide (length transactions = 0%nat) then
    mret (mkGasPriceStats zero zero zero 0)
  else
    gasPricesWei ← gasPricesWei transactions;
    match gasPricesWei with
    | [] => mret (mkGasPriceStats zero zero zero (length transactions))
    | first :: _ =>
        let sumGasPrice := reduce (fun sum price => sum + price) gasPricesWei 0 in
        averageGasPriceWei ← bigint_div sumGasPrice (Z.of_nat (length gasPricesWei));
        let minGasPriceWei := reduce (fun min price => if decide (price < min) then price else min) gasPricesWei first in
        let maxGasPriceWei := reduce (fun max price => if decide (price > max) then price else max) gasPricesWei first in
        mret (mkGasPriceStats (weiToGwei averageGasPriceWei) (weiToGwei minGasPriceWei)
                (weiToGwei maxGasPriceWei) (length transactions))
    end.

(** [transactions.map(tx => { try { return BigInt(tx.value || '0') } catch { return 0n } })
      .filter(value => value > 0n)] *)
Definition valuesWei (transactions : list Transaction) : list Z :=
  filter (fun value => 0 < value)
    (map (fun tx => try_catch (BigInt (or_else (value tx) "0")) 0) transactions).

Definition computeTransactionValueStats (transactions : list Transaction) : Completion TransactionValueStats :=
  if decide (length transactions = 0%nat) then
    mret (mkTransactionValueStats zero zero zero zero 0)
  else
    let valuesWei := valuesWei transactions in
    match valuesWei with
    | [] => mret (mkTransactionValueStats zero zero zero zero (length transactions))
    | first :: _ =>
        let sumValue := reduce (fun sum value => sum + value) valuesWei 0 in
        averageValueWei ← bigint_div sumValue (Z.of_nat (length valuesWei));
        let minValueWei := reduce (fun min value => if decide (value < min) then value else min) valuesWei first in
        let maxValueWei := reduce (fun max value => if decide (value > max) then value else max) valuesWei first in
        mret (mkTransactionValueStats (weiToEth sumValue) (weiToEth averageValueWei)
                (weiToEth minValueWei) (weiToEth maxValueWei) (length transactions))
    end.

(** ** List-level specifications of the reductions *)

Definition Zsum (l : list Z) : Z := foldr Z.add 0 l.

Definition minimum (l : list Z) : Z :=
  match l with
  | [] => 0
  | x :: r => foldr Z.min x r
  end.

Definition maximum (l : list Z) : Z :=
  match l with
  | [] => 0
  | x :: r => foldr Z.max x r
  end.

(** ** Active addresses *)

Record ActiveAddressesStats : Type := mkActiveAddressesStats {
  uniqueAddresses : nat;
  uniqueSenders : nat;
  uniqueReceivers : nat;
}.

(** The three [Set<string>] of the source, in the order senders, receivers,
    allAddresses. Only their sizes are read, so a [gset] stands for a
    [Set]. *)
Definition AddressSets : Type := gset string * gset string * gset string.

(** [if (x)] on a [string | null]. *)
Definition truthy_opt (x : option string) : bool :=
  match x with
  | Some s => truthy s
  | None => false
  end.

(** The body of the [forEach] callback. *)
Definition activeAddresses_step (sets : AddressSets) (tx : Transaction) : AddressSets :=
  let '(senders, receivers, allAddresses) := sets in
  let '(senders, allAddresses) :=
    if truthy (from tx)
    then ({[toLowerCase (from tx)]} ∪ senders, {[toLowerCase (from tx)]} ∪ allAddresses)
    else (senders, allAddresses) in
  let '(receivers, allAddresses) :=
    match to tx with
    | Some t =>
        if truthy t
        then ({[toLowerCase t]} ∪ receivers, {[toLowerCase t]} ∪ allAddresses)
        else (receivers, allAddresses)
    | None => (receivers, allAddresses)
    end in
  (senders, receivers, allAddresses).

Definition computeActiveAddresses (transactions : list Transaction) : ActiveAddressesStats :=
  let '(senders, receivers, allAddresses) :=
    fold_left activeAddresses_step transactions (∅, ∅, ∅) in
  mkActiveAddressesStats (size allAddresses) (size senders) (size receivers).

(** ** Contract deployments *)

Record ContractDeploymentStats : Type := mkContractDeploymentStats {
  totalDeployments : nat;
  deploymentPercentage : Js.number;
}.

(** [tx.to === null || tx.to === ''] *)
Definition isDeployment (tx : Transaction) : bool :=
  match to tx with
  | None => true
  | Some EmptyString => true
  | Some (String _ _) => false
  end.

Definition computeContractDeployments (transactions : list Transaction) : ContractDeploymentStats :=
  let deployments := filter (fun tx => isDeployment tx = true) transactions in
  let totalDeployments := length deployments in
  let deploymentPercentage :=
    if decide (0 < length transactions)%nat
    then Js.mul (Js.div (Js.of_nat totalDeployments) (Js.of_nat (length transactions))) (Js.of_Z 100)
    else zero in
  mkContractDeploymentStats totalDeployments deploymentPercentage.

(** ** Sorting and slicing arrays *)

(** [Array.prototype.sort] is stable (ECMAScript 2019). For a consistent
    comparator its result is the one stable ordering of the array, which
    insertion from the right computes: [x], which stood before every
    element of the sorted tail, stays before the first [y] with
    [compare x y <= 0]. *)
Fixpoint sort_insert {A} (compare : A → A → Z) (x : A) (l : list A) : list A :=
  match l with
  | [] => [x]
  | y :: l' => if decide (compare x y ≤ 0) then x :: l else y :: sort_insert compare x l'
  end.

Definition Array_sort {A} (compare : A → A → Z) (l : list A) : list A :=
  foldr (sort_insert compare) [] l.

(** [l.slice(0, end)] for an integer [end]: a negative [end] counts from
    the end of the array. *)
Definition slice0 {A} (l : list A) (end_ : Z) : list A :=
  let len := Z.of_nat (length l) in
  let final := if decide (end_ < 0) then Z.max (len + end_) 0 else Z.min end_ len in
  take (Z.to_nat final) l.

(** ** Block time statistics *)

Record BlockTimeStats : Type := mkBlockTimeStats {
  averageBlockTimeSeconds : Js.number;
  minBlockTimeSeconds : Js.number;
  maxBlockTimeSeconds : Js.number;
  totalBlocks : nat;
}.

(** The leading digits of the radix, if any: [parseInt] stops at the
    first character that is no digit. *)
Fixpoint digitsPrefix (radix : Z) (acc : option Z) (s : string) : option Z :=
  match s with
  | EmptyString => acc
  | String c r =>
      match digitValue radix c with
      | Some d => digitsPrefix radix (Some (default 0 acc * radix + d)) r
      | None => acc
      end
  end.

(** [parseInt(s, radix)] for an integer [radix], 0 standing for an omitted
    radix: leading white space is skipped, a sign is read, [0x] or [0X]
    selects radix 16 when the radix is omitted or 16, and the digits up to
    the first other character are the value; no digit at all gives NaN. *)
Definition parseInt (s : string) (radix : Z) : Js.number :=
  let s := trimStart s in
  let '(sign, s) :=
    match s with
    | String "-" r => (-1, r)
    | String "+" r => (1, r)
    | _ => (1, s)
    end in
  if decide (radix ≠ 0 ∧ (radix < 2 ∨ 36 < radix)) then NaN
  else
    let stripPrefix := bool_decide (radix = 0 ∨ radix = 16) in
    let R := if decide (radix = 0) then 10 else radix in
    let '(R, s) :=
      match s with
      | String "0" (String ("x" | "X") r) => if stripPrefix then (16, r) else (R, s)
      | _ => (R, s)
      end in
    match digitsPrefix R None s with
    | Some v => Js.of_Z (sign * v)
    | None => NaN
    end.

#[global] Instance Block_inhabited : Inhabited Block := populate (mkBlock "" 0 "" 0).

(** The [for (let i = 1; i < sortedBlocks.length; i++)] loop: one delta
    per index. *)
Definition blockTimes (sortedBlocks : list Block) : list Js.number :=
  map (fun i : nat =>
         let prevTimestamp := parseInt (block_timestamp (sortedBlocks !!! (i - 1)%nat)) 0 in
         let currTimestamp := parseInt (block_timestamp (sortedBlocks !!! i)) 0 in
         Js.sub currTimestamp prevTimestamp)
      (seq 1 (length sortedBlocks - 1)).

Definition computeBlockTimeStats (blocks : list Block) : BlockTimeStats :=
  if decide (length blocks < 2)%nat then
    mkBlockTimeStats zero zero zero (length blocks)
  else
    let sortedBlocks := Array_sort (fun a b => number a - number b) blocks in
    let blockTimes := blockTimes sortedBlocks in
    match blockTimes with
    | [] => mkBlockTimeStats zero zero zero (length blocks)
    | t :: ts =>
        let sum := reduce Js.add blockTimes zero in
        let average := Js.div sum (Js.of_nat (length blockTimes)) in
        let min := Math_min t ts in
        let max := Math_max t ts in
        mkBlockTimeStats average min max (length blocks)
    end.

(** ** Top addresses *)

Record TopAddress : Type := mkTopAddress {
  address : string;
  transactionCount : Z;
}.

(** A [Map<string, number>] keeps its entries in insertion order, and
    [set] on a present key keeps the key's place: an association list
    without duplicate keys. *)
Definition JsMap : Type := list (string * Z).

Fixpoint Map_get (k : string) (m : JsMap) : option Z :=
  match m with
  | [] => None
  | (k', v) :: m' => if decide (k' = k) then Some v else Map_get k m'
  end.

Fixpoint Map_set (k : string) (v : Z) (m : JsMap) : JsMap :=
  match m with
  | [] => [(k, v)]
  | (k', v') :: m' => if decide (k' = k) then (k, v) :: m' else (k', v') :: Map_set k v m'
  end.

(** [x || 0] on a [number | undefined]. *)
Definition or_zero (x : option Z) : Z :=
  match x with
  | Some v => if decide (v = 0) then 0 else v
  | None => 0
  end.

(** [addressCounts.set(addr, (addressCounts.get(addr) || 0) + 1)] *)
Definition bump (addr : string) (addressCounts : JsMap) : JsMap :=
  Map_set addr (or_zero (Map_get addr addressCounts) + 1) addressCounts.

(** The body of the [forEach] callback. *)
Definition topAddresses_step (addressCounts : JsMap) (tx : Transaction) : JsMap :=
  let addressCounts :=
    if truthy (from tx) then bump (toLowerCase (from tx)) addressCounts else addressCounts in
  match to tx with
  | Some t => if truthy t then bump (toLowerCase t) addressCounts else addressCounts
  | None => addressCounts
  end.

(** [limit] is [None] when the argument is omitted: the default is 5. *)
Definition computeTopAddresses (transactions : list Transaction) (limit : option Z) : list TopAddress :=
  let limit := default 5 limit in
  let addressCounts := fold_left topAddresses_step transactions [] in
  let sortedAddresses :=
    map (fun '(address, transactionCount) => mkTopAddress address transactionCount)
        (slice0 (Array_sort (fun a b : string * Z => b.2 - a.2) addressCounts) limit) in
  sortedAddresses.

(** ** [retryWithBackoff] *)

(** What a promise can reject with: an Error instance, or any other value,
    of which the code reads only [String(value)]. *)
Inductive Thrown : Type :=
  | ThrownError (e : Error)
  | ThrownOther (str : string).

Inductive Settled (T : Type) : Type :=
  | Resolved (v : T)
  | Rejected (reason : Thrown).
Arguments Resolved {T} v.
Arguments Rejected {T} reason.

(** An awaited asynchronous operation: it settles, and the world outside
    the program ([W]: the server, the clock) has moved on. *)
Definition Async (W T : Type) : Type := W → Settled T * W.

(** What [retryWithBackoff] does, in order: it invokes the operation, it
    waits. *)
Inductive Event : Type :=
  | Invoke
  | Wait (delay : Z).

(** [error instanceof Error ? error : new Error(String(error))] *)
Definition toError (error : Thrown) : Error :=
  match error with
  | ThrownError e => e
  | ThrownOther str => new_Error str
  end.

Section retry.

Context {W T : Type}.

(** [await new Promise(resolve => setTimeout(resolve, delay))]: how the
    world changes while the program waits. *)
Variable sleep : Z → W → W.

Variable fn : Async W T.
Variables maxRetries initialDelay : Z.

(** The [for] loop from a given [attempt], and the [throw] after it. *)
Equations? retry_loop (attempt : Z) (lastError : option Error) (w : W) : Settled T * W * list Event
  by wf (Z.to_nat (maxRetries - attempt)) lt :=
retry_loop attempt lastError w with decide (attempt < maxRetries) := {
  | left _ with fn w := {
    | (Resolved v, w1) => (Resolved v, w1, [Invoke])
    | (Rejected error, w1) with decide (attempt < maxRetries - 1) := {
      | left _ =>
          let delay := initialDelay * 2 ^ attempt in
          let '(r, w2, trace) := retry_loop (attempt + 1) (Some (toError error)) (sleep delay w1) in
          (r, w2, Invoke :: Wait delay :: trace)
      | right _ =>
          let '(r, w2, trace) := retry_loop (attempt + 1) (Some (toError error)) w1 in
          (r, w2, Invoke :: trace) } };
  | right _ =>
      (Rejected (ThrownError (default (new_Error "Unknown error occurred") lastError)), w, []) }.
Proof. all: lia. Qed.

Definition retryWithBackoff (w : W) : Settled T * W * list Event := retry_loop 0 None w.

End retry.

(** ** Transaction volume *)

Record TransactionVolumeStats : Type := mkTransactionVolumeStats {
  volume_totalTransactions : Z;
  blocksAnalyzed : nat;
  averageTransactionsPerBlock : Js.number;
}.

Definition computeTransactionVolume (blocks : list Block) : TransactionVolumeStats :=
  let totalTransactions := reduce (fun sum block => sum + transaction_count block) blocks 0 in
  let blocksAnalyzed := length blocks in
  let averageTransactionsPerBlock :=
    if decide (0 < blocksAnalyzed)%nat
    then Js.div (Js.of_Z totalTransactions) (Js.of_nat blocksAnalyzed)
    else zero in
  mkTransactionVolumeStats totalTransactions blocksAnalyzed averageTransactionsPerBlock.

(** ** The entry point: fetching, then the seven statistics *)

Record Statistics : Type := mkStatistics {
  transactionVolume : TransactionVolumeStats;
  gasPriceStats : GasPriceStats;
  activeAddresses : ActiveAddressesStats;
  contractDeployments : ContractDeploymentStats;
  blockTimeStats : BlockTimeStats;
  topAddresses : list TopAddress;
  valueStats : TransactionValueStats;
}.

(** The seven calls of [main], in the order of the source. *)
Definition computeStatistics (blocks : list Block) (transactions : list Transaction) : Completion Statistics :=
  let transactionVolume := computeTransactionVolume blocks in
  gasPriceStats ← computeAverageGasPrice transactions;
  let activeAddresses := computeActiveAddresses transactions in
  let contractDeployments := computeContractDeployments transactions in
  let blockTimeStats := computeBlockTimeStats blocks in
  let topAddresses := computeTopAddresses transactions (Some 5) in
  valueStats ← computeTransactionValueStats transactions;
  mret (mkStatistics transactionVolume gasPriceStats activeAddresses contractDeployments
          blockTimeStats topAddresses valueStats).

(** What a run does to the outside, in order: requests through
    [retryWithBackoff] (with what the helper did) and warnings. *)
Inductive MainEvent : Type :=
  | RequestBlocks (limit : Js.number) (trace : list Event)
  | RequestTransactions (block_number offset : Z) (trace : list Event)
  | Warn (block_number : Z).

Inductive RunResult : Type :=
  | Exit (code : Z)
  | Completed (blocks : list Block) (transactions : list Transaction) (statistics : Statistics).

Section main.

Context {W : Type}.
Variable sleep : Z → W → W.

(** The two methods of the client that [main] calls; what they answer is
    up to the world. *)
Variable getLatestBlocks : Js.number → Async W (list Block).
Variable getTransactions : Z → Z → Async W (list Transaction).

(** The body of [for (const block of ...)]: [transactions], the world and
    the log so far, then one block. *)
Definition fetch_step (st : list Transaction * W * list MainEvent) (block : Block)
  : list Transaction * W * list MainEvent :=
  let '(transactions, w, log) := st in
  let '(r, w', trace) := retryWithBackoff sleep (getTransactions (number block) 100) 3 1000 w in
  match r with
  | Resolved blockTxs =>
      (transactions ++ blockTxs, w', log ++ [RequestTransactions (number block) 100 trace])
  | Rejected _ =>
      (transactions, w', log ++ [RequestTransactions (number block) 100 trace; Warn (number block)])
  end.

(** [blocks.slice(0, Math.min(20, blocks.length))] *)
Definition analyzedBlocks (blocks : list Block) : list Block :=
  slice0 blocks (Z.min 20 (Z.of_nat (length blocks))).

(** [main], with [BLOCK_RANGE] the environment variable if set. *)
Definition main (BLOCK_RANGE : option string) (w : W) : RunResult * W * list MainEvent :=
  let blockRange := parseInt (or_else BLOCK_RANGE "100") 10 in
  let '(r, w1, trace) := retryWithBackoff sleep (getLatestBlocks blockRange) 3 1000 w in
  match r with
  | Rejected _ => (Exit 1, w1, [RequestBlocks blockRange trace])
  | Resolved blocks =>
      if decide (length blocks = 0%nat) then (Exit 0, w1, [RequestBlocks blockRange trace])
      else
        let '(transactions, w2, log) :=
          fold_left fetch_step (analyzedBlocks blocks) ([], w1, [RequestBlocks blockRange trace]) in
        match computeStatistics blocks transactions with
        | Return statistics => (Completed blocks transactions statistics, w2, log)
        | Throw _ => (Exit 1, w2, log)
        end
  end.

End main.

(** ** What the statistics are said to compute *)

(** Consecutive differences [x1 - x0, x2 - x1, ...]. *)
Fixpoint deltas (xs : list Js.number) : list Js.number :=
  match xs with
  | x0 :: (x1 :: _) as rest => Js.sub x1 x0 :: deltas rest
  | _ => []
  end.

Definition number_sum (xs : list Js.number) : Js.number := foldr Js.add zero xs.

(** Arithmetic mean. *)
Definition mean (xs : list Js.number) : Js.number :=
  Js.div (number_sum xs) (Js.of_nat (length xs)).

(** Order on numbers: nothing compares with NaN. *)
Definition number_le (x y : Js.number) : Prop :=
  match x, y with
  | Fin a, Fin b => (a ≤ b)%Qc
  | _, _ => False
  end.

Definition is_finite (x : Js.number) : Prop :=
  match x with
  | Fin _ => True
  | NaN => False
  end.

(** The timestamps of the blocks, as [parseInt] reads them. *)
Definition timestamps (blocks : list Block) : list Js.number :=
  map (fun b => parseInt (block_timestamp b) 0) blocks.


(** The senders and the receivers of the specification: every non-empty
    [from] (resp. non-empty, non-null [to]), in lower case. *)
Definition senders_of (transactions : list Transaction) : gset string :=
  list_to_set (toLowerCase <$> filter (fun s => s ≠ "") (from <$> transactions)).

Definition receivers_of (transactions : list Transaction) : gset string :=
  list_to_set (toLowerCase <$> filter (fun s => s ≠ "") (omap to transactions)).

(** The address occurrences of the specification, in the order the
    transactions are read: the lowercased [from] if it is non-empty, then
    the lowercased [to] if it is non-null and non-empty. *)
Definition occurrences_of (tx : Transaction) : list string :=
  (if decide (from tx = "") then [] else [toLowerCase (from tx)])
  ++ match to tx with
     | Some t => if decide (t = "") then [] else [toLowerCase t]
     | None => []
     end.

Definition occurrences (transactions : list Transaction) : list string :=
  flat_map occurrences_of transactions.

(** The distinct elements in the order of their first appearance. *)
Fixpoint first_seen (l : list string) : list string :=
  match l with
  | [] => []
  | x :: r => x :: filter (fun y => y ≠ x) (first_seen r)
  end.

(** How often [a] occurs. *)
Definition count (a : string) (l : list string) : Z :=
  Z.of_nat (length (filter (fun b => b = a) l)).

(** Every distinct address with its number of occurrences, in the order
    of first appearance. *)
Definition tally (l : list string) : list (string * Z) :=
  map (fun a => (a, count a l)) (first_seen l).

(** ** What [retryWithBackoff] is said to do *)

Section retry_spec.

Context {W T : Type}.
Variable sleep : Z → W → W.
Variable fn : Async W T.
Variable initialDelay : Z.

(** The [k]-th invocation to come (counted from 0) when the helper is
    about to make the attempt of index [attempt] in world [w], every
    invocation before it having failed: how it settles and the world it
    leaves. After the failure of the attempt of index [a] the helper waits
    [initialDelay * 2 ^ a]. *)
Fixpoint attempt_from (attempt : Z) (k : nat) (w : W) : Settled T * W :=
  match k with
  | O => fn w
  | S k' => attempt_from (attempt + 1) k' (sleep (initialDelay * 2 ^ attempt) (fn w).2)
  end.

(** The trace of [k] failed attempts, each followed by its wait, and one
    more attempt. *)
Definition backoff_trace (attempt : Z) (k : nat) : list Event :=
  flat_map (fun j : nat => [Invoke; Wait (initialDelay * 2 ^ (attempt + Z.of_nat j))]) (seq 0 k)
  ++ [Invoke].

End retry_spec.

Definition rejects {W T} (r : Settled T * W) : Prop :=
  match r.1 with
  | Rejected _ => True
  | Resolved _ => False
  end.

(** The number of invocations in a trace. *)
Definition is_Invoke (e : Event) : bool :=
  match e with
  | Invoke => true
  | Wait _ => false
  end.

Definition invocations (trace : list Event) : nat :=
  length (filter (fun e => is_Invoke e = true) trace).

(** ** What the fetch loop is said to do *)

(** The block numbers transactions were requested for, in order. *)
Definition requested (log : list MainEvent) : list Z :=
  omap (fun e => match e with
                 | RequestTransactions block_number _ _ => Some block_number
                 | _ => None
                 end) log.

Section main_spec.

Context {W : Type}.
Variable sleep : Z → W → W.
Variable getTransactions : Z → Z → Async W (list Transaction).

(** The transactions of the given blocks, block after block: what each
    fetch (retried as the helper retries) resolves to, and nothing for a
    block whose fetch fails. *)
Fixpoint collected (blocks : list Block) (w : W) : list Transaction :=
  match blocks with
  | [] => []
  | block :: rest =>
      let '(r, w', _) := retryWithBackoff sleep (getTransactions (number block) 100) 3 1000 w in
      match r with
      | Resolved blockTxs => blockTxs
      | Rejected _ => []
      end ++ collected rest w'
  end.

End main_spec.

(** ** Fixtures: the records of the test suite and small worlds *)

(** A transaction with the fields the statistics read. *)
Definition tx (from to : string) (value gas_price : string) : Transaction :=
  mkTransaction "0x1" from (Some to) (Some value) (Some gas_price) "21000" "21000" "1000".

Definition tx_to (to : option string) : Transaction :=
  mkTransaction "0x1" "0xA" to (Some "0") (Some "1000") "21000" "21000" "1000".

Definition blk (n : Z) (ts : string) : Block := mkBlock "0x" n ts 0.

(** Equality of numbers, decided. *)
Definition number_eqb (x y : Js.number) : bool :=
  match x, y with
  | NaN, NaN => true
  | Fin a, Fin b => Qeq_bool a b
  | _, _ => false
  end.

(** An operation that fails until its [n]-th call, in a world that counts
    the calls. *)
Definition succeeds_at (n : nat) : Async nat string := fun calls =>
  (if decide (S calls < n)%nat then Rejected (ThrownError (new_Error "Temporary error"))
   else Resolved "success", S calls).

Definition always_fails : Async nat string := fun calls =>
  (Rejected (ThrownError (new_Error "Persistent error")), S calls).

(** A server that lists 22 blocks and has one transaction for every block
    but block 3, whose fetch always fails. *)
Definition demo_blocks : list Block := map (fun n => blk (Z.of_nat n) "0") (seq 1 22).

Definition demo_getLatestBlocks : Js.number → Async unit (list Block) :=
  fun _ w => (Resolved demo_blocks, w).

Definition demo_getTransactions : Z → Z → Async unit (list Transaction) :=
  fun block_number _ w =>
    (if decide (block_number = 3) then Rejected (ThrownError (new_Error "Network error: timeout"))
     else Resolved [tx "0xa" "0xb" "1" "1"], w).

Abbreviation by_number := (fun a b : Block => number a - number b).
Abbreviation by_count_desc := (fun a b : string * Z => b.2 - a.2).
Abbreviation entry := (fun e : string * Z => mkTopAddress e.1 e.2).

(** ** Further measures of a run of [retryWithBackoff] *)

(** The time spent waiting in a trace: the sum of its delays. *)
Definition waited (trace : list Event) : Z :=
  Zsum (omap (fun e => match e with
                       | Wait delay => Some delay
                       | Invoke => None
                       end) trace).

(** How the outcome of the last attempt leaves the helper: a value as it
    is, a failure as an Error. *)
Definition surfaced {T} (r : Settled T) : Settled T :=
  match r with
  | Resolved v => Resolved v
  | Rejected error => Rejected (ThrownError (toError error))
  end.

(** ** Further measures of a run of [main] *)

(** What the helper did for one entry of the log. *)
Definition trace_of (e : MainEvent) : list Event :=
  match e with
  | RequestBlocks _ trace => trace
  | RequestTransactions _ _ trace => trace
  | Warn _ => []
  end.

(** Everything the helper did in a run, request after request. *)
Definition run_trace (log : list MainEvent) : list Event := flat_map trace_of log.

(** A string [BigInt] accepts. *)
Definition is_BigInt_literal (s : string) : Prop := is_Some (StringToBigInt s).

(** ** The Blockscout client ([api-client.ts]) *)

(** What the API sends, as the interfaces [ApiBlock] and [ApiTransaction]
    declare it. A field the code guards with [?.] or [||] is optional
    here: [None] stands for a field that is absent ([undefined], [null]). *)
Record ApiBlock : Type := mkApiBlock {
  api_block_hash : string;
  height : Z;
  api_block_timestamp : string;
  transactions_count : Z;
}.

Record ApiAddress : Type := mkApiAddress {
  address_hash : option string;
}.

Record ApiTransaction : Type := mkApiTransaction {
  api_hash : string;
  api_from : option ApiAddress;
  api_to : option ApiAddress;
  api_value : option string;
  api_gas_price : option string;
  api_gas_used : option string;
  api_gas : option string;
  api_timestamp : string;
}.

Record BlockscoutBlocksResponse : Type := mkBlocksResponse {
  blocks_items : option (list ApiBlock);
}.

Record BlockscoutTransactionsResponse : Type := mkTransactionsResponse {
  transactions_items : option (list ApiTransaction);
}.

(** A request of the axios instance: the path and the query parameters,
    in the order the object literal lists them. *)
Inductive Param : Type :=
  | ParamNumber (n : Js.number)
  | ParamString (s : string).

Record Request : Type := mkRequest {
  url : string;
  params : list (string * Param);
}.

(** What the catch blocks read of an axios error: [error.response?.status],
    [error.response?.data] (as [JSON.stringify] prints it; [None] when it
    is absent or falsy) and [error.message]. *)
Record AxiosResponse : Type := mkAxiosResponse {
  status : Z;
  error_data : option string;
}.

Record AxiosError : Type := mkAxiosError {
  response : option AxiosResponse;
  axios_message : string;
}.

(** What [await this.client.get(...)] can throw: an axios error
    ([axios.isAxiosError]) or anything else. *)
Inductive AxiosThrown : Type :=
  | AxiosFailure (error : AxiosError)
  | OtherFailure (error : Thrown).

(** How [await this.client.get<D>(...)] settles: with a response whose
    [data] is of the declared type [D], or absent or falsy ([None]); or
    with a failure. *)
Inductive AxiosSettled (D : Type) : Type :=
  | AxiosResolved (data : option D)
  | AxiosRejected (error : AxiosThrown).
Arguments AxiosResolved {D} data.
Arguments AxiosRejected {D} error.

(** The axios instance [this.client]: its [get<D>] at the four types the
    methods use it at. What a request is answered is up to the world [W]
    outside the program; [AddressInfo] is what the API says of an address
    ([any] in the source). *)
Record AxiosInstance (W AddressInfo : Type) : Type := mkAxiosInstance {
  get_blocks : Request → W → AxiosSettled BlockscoutBlocksResponse * W;
  get_block : Request → W → AxiosSettled ApiBlock * W;
  get_transactions : Request → W → AxiosSettled BlockscoutTransactionsResponse * W;
  get_address : Request → W → AxiosSettled AddressInfo * W;
}.
Arguments mkAxiosInstance {W AddressInfo}.
Arguments get_blocks {W AddressInfo}.
Arguments get_block {W AddressInfo}.
Arguments get_transactions {W AddressInfo}.
Arguments get_address {W AddressInfo}.

(** The parameter object of [getTransactions]. *)
Record TransactionsParams : Type := mkTransactionsParams {
  params_block_number : option Z;
  params_address : option string;
  params_page : option Z;
  params_offset : option Z;
}.

(** [x || d] where [x] is an integer or absent: 0 is falsy. *)
Definition number_or (x : option Z) (d : Z) : Z :=
  match x with
  | Some n => if decide (n = 0) then d else n
  | None => d
  end.

(** [...(x && { key: x })] for an integer and for a string [x]: a falsy
    [x] spreads to nothing. *)
Definition spread_number (key : string) (x : option Z) : list (string * Param) :=
  match x with
  | Some n => if decide (n = 0) then [] else [(key, ParamNumber (Js.of_Z n))]
  | None => []
  end.

Definition spread_string (key : string) (x : option string) : list (string * Param) :=
  match x with
  | Some s => if truthy s then [(key, ParamString s)] else []
  | None => []
  end.

(** The time value of a date: an integer of magnitude at most 8.64e15
    milliseconds, or none (NaN). *)
Definition TimeClip (time : option Z) : option Z :=
  time ≫= fun t => if decide (Z.abs t ≤ 8640000000000000) then Some t else None.

(** The [catch] block the four methods share: an axios error becomes an
    Error whose message depends on the status and the body, anything else
    is thrown again as it is. *)
Definition catch_block (error : AxiosThrown) : Thrown :=
  match error with
  | AxiosFailure error =>
      if decide (status <$> response error = Some 429) then
        ThrownError (new_Error "Rate limit exceeded. Please try again later.")
      else
        match response error ≫= error_data with
        | Some data => ThrownError (new_Error ("API error: " +:+ data))
        | None => ThrownError (new_Error ("Network error: " +:+ axios_message error))
        end
  | OtherFailure error => error
  end.

(** [throw new Error('API error: Invalid response format')], which the
    catch block throws again. *)
Definition invalid_response_format : Thrown :=
  ThrownError (new_Error "API error: Invalid response format").

Section client.

Context {W AddressInfo : Type}.

(** [Date.parse]: the milliseconds since the epoch of a string the
    engine's date parser accepts; which strings it accepts is up to the
    engine. *)
Variable Date_parse : string → option Z.

Variable client : AxiosInstance W AddressInfo.

(** [new Date(isoString).getTime()] *)
Definition Date_getTime (isoString : string) : option Z := TimeClip (Date_parse isoString).

(** [Math.floor(new Date(isoString).getTime() / 1000).toString()]: the
    whole seconds in decimal, "NaN" for an invalid date. A time value is
    an integer of at most 16 digits: its binary64 quotient by 1000 has
    the floor of the exact quotient, which is far below 1e21, where
    integers print in decimal. *)
Definition isoToUnixTimestamp (isoString : string) : string :=
  match Date_getTime isoString with
  | Some ms => pretty (ms `div` 1000)
  | None => "NaN"
  end.

(** The callbacks of [items.map(...)]. *)
Definition toBlock (apiBlock : ApiBlock) : Block :=
  mkBlock (api_block_hash apiBlock) (height apiBlock)
          (isoToUnixTimestamp (api_block_timestamp apiBlock)) (transactions_count apiBlock).

Definition toTransaction (apiTx : ApiTransaction) : Transaction :=
  mkTransaction
    (api_hash apiTx)
    (or_else (api_from apiTx ≫= address_hash) "")
    (match api_to apiTx ≫= address_hash with
     | Some hash => if truthy hash then Some hash else None
     | None => None
     end)
    (Some (or_else (api_value apiTx) "0"))
    (Some (or_else (api_gas_price apiTx) "0"))
    (or_else (api_gas_used apiTx) "0")
    (or_else (api_gas apiTx) "0")
    (isoToUnixTimestamp (api_timestamp apiTx)).

(** [getLatestBlocks(limit = 100)] *)
Definition getLatestBlocks (limit : option Js.number) : Async W (list Block) := fun w =>
  let limit := default (Js.of_Z 100) limit in
  match get_blocks client
          (mkRequest "/v2/blocks" [("page", ParamNumber (Js.of_Z 1)); ("offset", ParamNumber limit)])
          w with
  | (AxiosResolved data, w') =>
      match data ≫= blocks_items with
      | Some items => (Resolved (map toBlock items), w')
      | None => (Rejected invalid_response_format, w')
      end
  | (AxiosRejected error, w') => (Rejected (catch_block error), w')
  end.

(** [getBlock(blockNumber)], for an integer [blockNumber] of magnitude
    below 1e21, which the template literal prints in decimal. *)
Definition getBlock (blockNumber : Z) : Async W Block := fun w =>
  match get_block client (mkRequest ("/v2/blocks/" +:+ pretty blockNumber) []) w with
  | (AxiosResolved data, w') =>
      match data with
      | Some data => (Resolved (toBlock data), w')
      | None => (Rejected invalid_response_format, w')
      end
  | (AxiosRejected error, w') => (Rejected (catch_block error), w')
  end.

(** [getTransactions(params)] *)
Definition getTransactions (params : TransactionsParams) : Async W (list Transaction) := fun w =>
  match get_transactions client
          (mkRequest "/v2/transactions"
             ([("page", ParamNumber (Js.of_Z (number_or (params_page params) 1)));
               ("offset", ParamNumber (Js.of_Z (number_or (params_offset params) 100)))]
              ++ spread_number "block_number" (params_block_number params)
              ++ spread_string "address" (params_address params)))
          w with
  | (AxiosResolved data, w') =>
      match data ≫= transactions_items with
      | Some items => (Resolved (map toTransaction items), w')
      | None => (Rejected invalid_response_format, w')
      end
  | (AxiosRejected error, w') => (Rejected (catch_block error), w')
  end.

(** [getAddress(address)] *)
Definition getAddress (address : string) : Async W AddressInfo := fun w =>
  match get_address client (mkRequest ("/v2/addresses/" +:+ address) []) w with
  | (AxiosResolved data, w') =>
      match data with
      | Some data => (Resolved data, w')
      | None => (Rejected invalid_response_format, w')
      end
  | (AxiosRejected error, w') => (Rejected (catch_block error), w')
  end.

(** The two calls of [main], on the client. *)
Definition main_getLatestBlocks (blockRange : Js.number) : Async W (list Block) :=
  getLatestBlocks (Some blockRange).

Definition main_getTransactions (block_number offset : Z) : Async W (list Transaction) :=
  getTransactions (mkTransactionsParams (Some block_number) None None (Some offset)).

End client.

(** A date parser for the examples: one date is known. *)
Definition demo_Date_parse (s : string) : option Z :=
  if decide (s = "2024-01-01T00:00:01.500Z") then Some 1704067201500
  else if decide (s = "1969-12-31T23:59:59.500Z") then Some (-500)
  else None.

(** An API for the examples: two blocks, and two transactions, one of them
    a deployment with fields missing. *)
Definition demo_client : AxiosInstance unit unit :=
  mkAxiosInstance
    (fun _ w =>
       (AxiosResolved (Some (mkBlocksResponse (Some
          [mkApiBlock "0xb2" 2 "2024-01-01T00:00:01.500Z" 7;
           mkApiBlock "0xb1" 1 "1969-12-31T23:59:59.500Z" 3]))), w))
    (fun _ w => (AxiosResolved None, w))
    (fun _ w =>
       (AxiosResolved (Some (mkTransactionsResponse (Some
          [mkApiTransaction "0x1" (Some (mkApiAddress (Some "0xA"))) (Some (mkApiAddress (Some "0xB")))
             (Some "5") (Some "1000000000") (Some "21000") (Some "21000") "2024-01-01T00:00:01.500Z";
           mkApiTransaction "0x2" (Some (mkApiAddress (Some "0xA"))) (Some (mkApiAddress (Some "")))
             None (Some "") None None "never"]))), w))
    (fun _ w => (AxiosRejected (AxiosFailure (mkAxiosError (Some (mkAxiosResponse 429 (Some "{}"))) "Request failed")), w)).

(** ** The program: [main] on the client *)

(** [main] with [apiClient = new BlockscoutApiClient()]. *)
Definition program {W AddressInfo : Type} (Date_parse : string → option Z)
    (client : AxiosInstance W AddressInfo) (sleep : Z → W → W) (BLOCK_RANGE : option string)
  : W → RunResult * W * list MainEvent :=
  main sleep (main_getLatestBlocks Date_parse client) (main_getTransactions Date_parse client)
       BLOCK_RANGE.

(** The whole seconds of a date as a number, NaN for a string that is no
    date. *)
Definition seconds_of (Date_parse : string → option Z) (isoString : string) : Js.number :=
  match Date_getTime Date_parse isoString with
  | Some ms => Js.of_Z (ms `div` 1000)
  | None => NaN
  end.

(** A transaction with every default of the client filled in: a
    recipient is never the empty string, and the four amounts are never
    absent or empty. *)
Definition defaults_filled (t : Transaction) : Prop :=
  to t ≠ Some ""
  ∧ (∃ v, value t = Some v ∧ v ≠ "")
  ∧ (∃ g, gas_price t = Some g ∧ g ≠ "")
  ∧ gas_used t ≠ "" ∧ gas t ≠ "".

(** ** The client under the retry helper *)

(** An HTTP layer that throws Error instances only, axios errors among
    them: no string, number or other value. *)
Definition Error_outcome {D : Type} (outcome : AxiosSettled D) : Prop :=
  match outcome with
  | AxiosRejected (OtherFailure (ThrownOther _)) => False
  | _ => True
  end.

Definition throws_Errors {W AddressInfo : Type} (client : AxiosInstance W AddressInfo) : Prop :=
  ∀ request w,
    Error_outcome (get_blocks client request w).1
    ∧ Error_outcome (get_block client request w).1
    ∧ Error_outcome (get_transactions client request w).1
    ∧ Error_outcome (get_address client request w).1.

(** An operation that rejects with Error instances only. *)
Definition rejects_with_Errors {W T : Type} (fn : Async W T) : Prop :=
  ∀ w reason w', fn w = (Rejected reason, w') → ∃ e, reason = ThrownError e.

(** Under the helper, what is surfaced is the failure of the last attempt
    of the budget as it is. *)
Definition surfaces_last_failure {W T : Type} (sleep : Z → W → W) (fn : Async W T) : Prop :=
  ∀ maxRetries initialDelay w reason w' trace,
    1 ≤ maxRetries →
    retryWithBackoff sleep fn maxRetries initialDelay w = (Rejected reason, w', trace) →
    attempt_from sleep fn initialDelay 0 (Z.to_nat (maxRetries - 1)) w = (Rejected reason, w').

(** * Properties *)

(** ** The JavaScript layer on examples *)

(** Two numbers are equal when the decision procedure says so. *)
Lemma number_eqb_eq (x y : Js.number) : number_eqb x y = true → x = y.
Proof.
  destruct x as [|a], y as [|b]; simpl; try done.
  intros H. f_equal. apply Qc_is_canon, Qeq_bool_iff, H.
Qed.

Ltac number_eq := apply number_eqb_eq; vm_compute; reflexivity.

Example BigInt_decimal : BigInt "1000000000" = Return 1000000000.
Proof. reflexivity. Qed.
Example BigInt_empty : BigInt "" = Return 0.
Proof. reflexivity. Qed.
Example BigInt_padded : BigInt " 12 " = Return 12.
Proof. reflexivity. Qed.
Example BigInt_negative : BigInt "-5" = Return (-5).
Proof. reflexivity. Qed.
Example BigInt_hex : BigInt "0x1F" = Return 31.
Proof. reflexivity. Qed.
Example BigInt_fraction : StringToBigInt "1.5" = None.
Proof. reflexivity. Qed.
Example BigInt_letters : StringToBigInt "abc" = None.
Proof. reflexivity. Qed.
Example toLowerCase_address : toLowerCase "0xAbC1" = "0xabc1".
Proof. reflexivity. Qed.

Example parseInt_examples :
  (parseInt "1704067200" 0, parseInt " 12abc" 0, parseInt "-0x1F" 0, parseInt "NaN" 0, parseInt "0x1F" 10)
  = (Js.of_Z 1704067200, Js.of_Z 12, Js.of_Z (-31), NaN, Js.of_Z 0).
Proof. reflexivity. Qed.

(** ** The cases of the test suite *)

Example gas_price_test :
  match computeAverageGasPrice
          [tx "0xa" "0xb" "0" "1000000000"; tx "0xa" "0xb" "0" "2000000000"; tx "0xa" "0xb" "0" "3000000000"] with
  | Return r => number_eqb (averageGasPriceGwei r) (Js.of_Z 2) && number_eqb (minGasPriceGwei r) (Js.of_Z 1)
                && number_eqb (maxGasPriceGwei r) (Js.of_Z 3) && Nat.eqb (gas_totalTransactions r) 3
  | Throw _ => false
  end = true.
Proof. vm_compute. reflexivity. Qed.

Example block_time_test :
  let r := computeBlockTimeStats [blk 100 "1000"; blk 101 "1010"; blk 102 "1025"; blk 103 "1040"] in
  number_eqb (averageBlockTimeSeconds r) (Js.div (Js.of_Z 40) (Js.of_Z 3)) = true
  ∧ minBlockTimeSeconds r = Js.of_Z 10 ∧ maxBlockTimeSeconds r = Js.of_Z 15 ∧ totalBlocks r = 4%nat.
Proof. cbv zeta. split; [vm_compute; reflexivity|]. repeat split; number_eq. Qed.

Example active_addresses_test :
  computeActiveAddresses [tx "0xA" "0xB" "0" "1000"; tx "0xA" "0xC" "0" "1000"; tx "0xB" "0xC" "0" "1000"]
  = mkActiveAddressesStats 3 2 2.
Proof. vm_compute. reflexivity. Qed.

Example contract_deployments_test :
  let r := computeContractDeployments [tx_to None; tx_to (Some "0xB"); tx_to (Some "")] in
  totalDeployments r = 2%nat
  ∧ number_eqb (deploymentPercentage r) (Js.div (Js.of_Z 200) (Js.of_Z 3)) = true.
Proof. vm_compute. split; reflexivity. Qed.

Example top_addresses_test :
  computeTopAddresses
    [tx "0xA" "0xB" "0" "1000"; tx "0xA" "0xC" "0" "1000"; tx "0xA" "0xB" "0" "1000"; tx "0xB" "0xC" "0" "1000"]
    (Some 3)
  = [mkTopAddress "0xa" 3; mkTopAddress "0xb" 3; mkTopAddress "0xc" 2].
Proof. vm_compute. reflexivity. Qed.

Example value_stats_test :
  match computeTransactionValueStats
          [tx "0xA" "0xB" "1000000000000000000" "1000"; tx "0xA" "0xB" "2000000000000000000" "1000";
           tx "0xA" "0xB" "3000000000000000000" "1000"] with
  | Return r => number_eqb (totalValueEth r) (Js.of_Z 6) && number_eqb (averageValueEth r) (Js.of_Z 2)
                && number_eqb (minValueEth r) (Js.of_Z 1) && number_eqb (maxValueEth r) (Js.of_Z 3)
                && Nat.eqb (value_totalTransactions r) 3
  | Throw _ => false
  end = true.
Proof. vm_compute. reflexivity. Qed.

Example retry_then_succeed_test :
  retryWithBackoff (fun _ w => w) (succeeds_at 2) 3 10 0%nat
  = (Resolved "success", 2%nat, [Invoke; Wait 10; Invoke]).
Proof. vm_compute. reflexivity. Qed.

Example retry_exhausted_test :
  retryWithBackoff (fun _ w => w) always_fails 3 10 0%nat
  = (Rejected (ThrownError (new_Error "Persistent error")), 3%nat,
     [Invoke; Wait 10; Invoke; Wait 20; Invoke]).
Proof. vm_compute. reflexivity. Qed.

(** ** The reductions of the source and their list-level specifications *)

Lemma foldr_min_elem (x : Z) (r : list Z) : foldr Z.min x r ∈ x :: r.
Proof.
  induction r as [|y r IH]; simpl; [left|].
  destruct (Z.min_spec y (foldr Z.min x r)) as [[_ ->]|[_ ->]].
  - right; left.
  - apply elem_of_cons in IH as [->|IH]; [left | do 2 right; exact IH].
Qed.

Lemma foldr_min_le (x : Z) (r : list Z) (p : Z) : p ∈ x :: r → foldr Z.min x r ≤ p.
Proof.
  induction r as [|y r IH]; simpl; intros H.
  - apply list_elem_of_singleton in H. lia.
  - apply elem_of_cons in H as [->|H].
    + assert (foldr Z.min x r ≤ x) by (apply IH; left). lia.
    + apply elem_of_cons in H as [->|H]; [lia|].
      assert (foldr Z.min x r ≤ p) by (apply IH; right; exact H). lia.
Qed.

Lemma foldr_max_elem (x : Z) (r : list Z) : foldr Z.max x r ∈ x :: r.
Proof.
  induction r as [|y r IH]; simpl; [left|].
  destruct (Z.max_spec y (foldr Z.max x r)) as [[_ ->]|[_ ->]].
  - apply elem_of_cons in IH as [->|IH]; [left | do 2 right; exact IH].
  - right; left.
Qed.

Lemma foldr_max_ge (x : Z) (r : list Z) (p : Z) : p ∈ x :: r → p ≤ foldr Z.max x r.
Proof.
  induction r as [|y r IH]; simpl; intros H.
  - apply list_elem_of_singleton in H. lia.
  - apply elem_of_cons in H as [->|H].
    + assert (x ≤ foldr Z.max x r) by (apply IH; left). lia.
    + apply elem_of_cons in H as [->|H]; [lia|].
      assert (p ≤ foldr Z.max x r) by (apply IH; right; exact H). lia.
Qed.

(** [minimum] and [maximum] are the least and the greatest element. *)
Lemma minimum_elem (l : list Z) : l ≠ [] → minimum l ∈ l.
Proof. destruct l as [|x r]; [done|]. intros _. apply foldr_min_elem. Qed.

Lemma minimum_le (l : list Z) (p : Z) : p ∈ l → minimum l ≤ p.
Proof. destruct l as [|x r]; [intros H; inversion H|]. apply foldr_min_le. Qed.

Lemma maximum_elem (l : list Z) : l ≠ [] → maximum l ∈ l.
Proof. destruct l as [|x r]; [done|]. intros _. apply foldr_max_elem. Qed.

Lemma maximum_ge (l : list Z) (p : Z) : p ∈ l → p ≤ maximum l.
Proof. destruct l as [|x r]; [intros H; inversion H|]. apply foldr_max_ge. Qed.

Section reductions.

Local Abbreviation fsum := (fun sum price : Z => sum + price).
Local Abbreviation fmin := (fun min price : Z => if decide (price < min) then price else min).
Local Abbreviation fmax := (fun max price : Z => if decide (price > max) then price else max).

Lemma reduce_sum_acc (l : list Z) (a : Z) : reduce fsum l a = a + Zsum l.
Proof.
  unfold reduce, Zsum. revert a. induction l as [|x l IH]; intros a; simpl; [lia|].
  rewrite IH. lia.
Qed.

Lemma foldr_min_acc (l : list Z) (a x : Z) :
  foldr Z.min (Z.min a x) l = Z.min x (foldr Z.min a l).
Proof. induction l as [|y l IH]; simpl; lia. Qed.

Lemma foldr_max_acc (l : list Z) (a x : Z) :
  foldr Z.max (Z.max a x) l = Z.max x (foldr Z.max a l).
Proof. induction l as [|y l IH]; simpl; lia. Qed.

Lemma reduce_min_acc (l : list Z) (a : Z) : reduce fmin l a = foldr Z.min a l.
Proof.
  unfold reduce. revert a. induction l as [|x l IH]; intros a; simpl; [done|].
  rewrite IH, <- foldr_min_acc. f_equal. case_decide; lia.
Qed.

Lemma reduce_max_acc (l : list Z) (a : Z) : reduce fmax l a = foldr Z.max a l.
Proof.
  unfold reduce. revert a. induction l as [|x l IH]; intros a; simpl; [done|].
  rewrite IH, <- foldr_max_acc. f_equal. case_decide; lia.
Qed.

(** The three reductions of the source on a non-empty array, started as
    the source starts them. *)
Lemma reduce_sum (l : list Z) : reduce fsum l 0 = Zsum l.
Proof. rewrite reduce_sum_acc. lia. Qed.

Lemma reduce_min (first : Z) (rest : list Z) :
  reduce fmin (first :: rest) first = minimum (first :: rest).
Proof.
  rewrite reduce_min_acc. simpl.
  assert (foldr Z.min first rest ≤ first) by (apply foldr_min_le; left). lia.
Qed.

Lemma reduce_max (first : Z) (rest : list Z) :
  reduce fmax (first :: rest) first = maximum (first :: rest).
Proof.
  rewrite reduce_max_acc. simpl.
  assert (first ≤ foldr Z.max first rest) by (apply foldr_max_ge; left). lia.
Qed.

End reductions.

(** ** Gas price and value statistics *)

(** The display conversions divide by [10 ^ 9] and by [10 ^ 18]. *)
Lemma weiToGwei_exact (wei : Z) : weiToGwei wei = Fin (Qc_of_Z wei / Qc_of_Z (10 ^ 9))%Qc.
Proof. reflexivity. Qed.

Lemma weiToEth_exact (wei : Z) : weiToEth wei = Fin (Qc_of_Z wei / Qc_of_Z (10 ^ 18))%Qc.
Proof. reflexivity. Qed.

(** A divisor that is the length of a non-empty array is not zero. *)
Lemma bigint_div_length {A} (a : Z) (x : A) (l : list A) :
  bigint_div a (Z.of_nat (length (x :: l))) = Return (Z.quot a (Z.of_nat (length (x :: l)))).
Proof. unfold bigint_div. destruct (Z.eqb_spec (Z.of_nat (length (x :: l))) 0) as [H|]; [|done]. simpl in H. lia. Qed.

(** The value statistics never throw: the only [BigInt] call sits in a
    [try], and the divisor is a non-zero length. *)
Lemma computeTransactionValueStats_total (transactions : list Transaction) :
  ∃ stats, computeTransactionValueStats transactions = Return stats.
Proof.
  unfold computeTransactionValueStats. case_decide; [eauto|].
  destruct (valuesWei transactions) as [|first rest]; [eauto|].
  rewrite bigint_div_length. simpl. eauto.
Qed.

(** A [value] that is absent, empty or no BigInt literal counts as [0n],
    and [0n] does not pass the filter: the transaction is as good as
    absent from [valuesWei]. *)
Lemma valuesWei_app (l1 l2 : list Transaction) : valuesWei (l1 ++ l2) = valuesWei l1 ++ valuesWei l2.
Proof. unfold valuesWei. by rewrite map_app, filter_app. Qed.

Lemma valuesWei_unparsable (t : Transaction) (l1 l2 : list Transaction) :
  value t = None ∨ value t = Some "" ∨ StringToBigInt (or_else (value t) "0") = None →
  valuesWei (l1 ++ t :: l2) = valuesWei (l1 ++ l2).
Proof.
  intros H. rewrite !valuesWei_app. f_equal.
  change (t :: l2) with ([t] ++ l2). rewrite valuesWei_app.
  assert (valuesWei [t] = []) as ->; [|done].
  unfold valuesWei, BigInt. simpl.
  destruct H as [-> | [-> | ->] ]; done.
Qed.

(** The gas price statistics throw exactly when some [gas_price] is no
    BigInt literal. *)
Lemma mapM_Completion_cons {A B} (f : A → Completion B) (x : A) (l : list A) :
  mapM f (x :: l) = y ← f x; k ← mapM f l; mret (y :: k).
Proof. reflexivity. Qed.

Lemma bind_Return {A B} (x : A) (f : A → Completion B) : Return x ≫= f = f x.
Proof. reflexivity. Qed.

Lemma BigInt_Some (s : string) (z : Z) : StringToBigInt s = Some z → BigInt s = Return z.
Proof. unfold BigInt. by intros ->. Qed.

Lemma BigInt_None (s : string) : StringToBigInt s = None → ∃ e, BigInt s = Throw e.
Proof. unfold BigInt. intros ->. eauto. Qed.

Lemma mapM_BigInt_Return (f : Transaction → string) (transactions : list Transaction) :
  Forall (fun tx => is_Some (StringToBigInt (f tx))) transactions →
  ∃ prices, mapM (fun tx => BigInt (f tx)) transactions = Return prices
            ∧ length prices = length transactions.
Proof.
  induction 1 as [|t l [z Hz] _ [prices [IH Hlen]]]; [by exists []|].
  exists (z :: prices). split; [|simpl; congruence].
  by rewrite mapM_Completion_cons, (BigInt_Some _ _ Hz), IH.
Qed.

Lemma mapM_BigInt_Throw (f : Transaction → string) (transactions : list Transaction) :
  Exists (fun tx => StringToBigInt (f tx) = None) transactions →
  ∃ e, mapM (fun tx => BigInt (f tx)) transactions = Throw e.
Proof.
  induction 1 as [t l Ht|t l _ [e IH]]; rewrite mapM_Completion_cons.
  - destruct (BigInt_None _ Ht) as [e ->]. simpl. eauto.
  - destruct (BigInt (f t)); simpl; [|eauto]. rewrite IH. simpl. eauto.
Qed.

Lemma computeAverageGasPrice_throws (transactions : list Transaction) :
  Exists (fun tx => StringToBigInt (or_else (gas_price tx) "0") = None) transactions →
  ∃ e, computeAverageGasPrice transactions = Throw e.
Proof.
  intros H. unfold computeAverageGasPrice.
  case_decide as Hlen.
  - destruct transactions; [inversion H | done].
  - unfold gasPricesWei. destruct (mapM_BigInt_Throw _ _ H) as [e ->]. simpl. eauto.
Qed.

Lemma computeAverageGasPrice_returns (transactions : list Transaction) :
  Forall (fun tx => is_Some (StringToBigInt (or_else (gas_price tx) "0"))) transactions →
  ∃ stats, computeAverageGasPrice transactions = Return stats.
Proof.
  intros H. unfold computeAverageGasPrice.
  case_decide as Hlen; [eauto|].
  unfold gasPricesWei. destruct (mapM_BigInt_Return _ _ H) as [prices [-> _]]. simpl.
  destruct (filter _ prices) as [|first rest]; [eauto|].
  rewrite bigint_div_length. simpl. eauto.
Qed.

(** With no positive amount the statistics are zero and
    [totalTransactions] is the length of the input. *)
Lemma computeTransactionValueStats_none_positive (transactions : list Transaction) :
  valuesWei transactions = [] →
  computeTransactionValueStats transactions
  = Return (mkTransactionValueStats zero zero zero zero (length transactions)).
Proof.
  intros H. unfold computeTransactionValueStats.
  case_decide as Hlen; [by rewrite Hlen|]. by rewrite H.
Qed.

Lemma computeAverageGasPrice_none_positive (transactions : list Transaction) :
  gasPricesWei transactions = Return [] →
  computeAverageGasPrice transactions
  = Return (mkGasPriceStats zero zero zero (length transactions)).
Proof.
  intros H. unfold computeAverageGasPrice.
  case_decide as Hlen; [by rewrite Hlen|]. by rewrite H.
Qed.

(** Whenever the statistics are returned, [totalTransactions] is the
    length of the input: it is 0 exactly on the empty array. *)
Lemma computeTransactionValueStats_totalTransactions (transactions : list Transaction)
    (stats : TransactionValueStats) :
  computeTransactionValueStats transactions = Return stats →
  value_totalTransactions stats = length transactions
  ∧ (value_totalTransactions stats = 0%nat ↔ transactions = []).
Proof.
  intros H.
  assert (value_totalTransactions stats = length transactions) as Hlen.
  { unfold computeTransactionValueStats in H. case_decide as Hnil.
    - injection H as <-. simpl. by rewrite Hnil.
    - destruct (valuesWei transactions) as [|first rest]; [by injection H as <-|].
      rewrite bigint_div_length, bind_Return in H. by injection H as <-. }
  split; [done|]. rewrite Hlen. by destruct transactions.
Qed.

Lemma computeAverageGasPrice_totalTransactions (transactions : list Transaction)
    (stats : GasPriceStats) :
  computeAverageGasPrice transactions = Return stats →
  gas_totalTransactions stats = length transactions
  ∧ (gas_totalTransactions stats = 0%nat ↔ transactions = []).
Proof.
  intros H.
  assert (gas_totalTransactions stats = length transactions) as Hlen.
  { unfold computeAverageGasPrice in H. case_decide as Hnil.
    - injection H as <-. simpl. by rewrite Hnil.
    - destruct (gasPricesWei transactions) as [[|first rest]|e]; [| |done].
      + by injection H as <-.
      + rewrite bind_Return in H. cbv beta iota in H.
        rewrite bigint_div_length, bind_Return in H. by injection H as <-. }
  split; [done|]. rewrite Hlen. by destruct transactions.
Qed.

(** C1 has a [gas_price] that does not parse count as 0, without raising.
    On "abc" [computeAverageGasPrice] throws a SyntaxError instead;
    [computeTransactionValueStats], whose [BigInt] call sits in a [try],
    returns the zero statistics for the same string in [value]. *)
Theorem computeAverageGasPrice_raises_on_unparsable :
  computeAverageGasPrice [tx "0xa" "0xb" "0" "abc"]
  = Throw (SyntaxError "Cannot convert abc to a BigInt")
  ∧ computeTransactionValueStats [tx "0xa" "0xb" "abc" "0"]
    = Return (mkTransactionValueStats zero zero zero zero 1).
Proof. split; reflexivity. Qed.

(** C3 has [computeAverageGasPrice] return zero statistics, with
    [totalTransactions] the input length, whenever no gas price is
    positive. On two transactions with the gas prices "0" and "1.5" it
    throws instead; the value statistics on the same two strings do return
    them, with [totalTransactions = 2]. *)
Theorem computeAverageGasPrice_no_zero_stats_on_unparsable :
  computeAverageGasPrice [tx "0xa" "0xb" "0" "0"; tx "0xa" "0xb" "0" "1.5"]
  = Throw (SyntaxError "Cannot convert 1.5 to a BigInt")
  ∧ computeTransactionValueStats [tx "0xa" "0xb" "0" "0"; tx "0xa" "0xb" "1.5" "0"]
    = Return (mkTransactionValueStats zero zero zero zero 2).
Proof. split; reflexivity. Qed.



(** ** [Array.prototype.sort] *)

Section sorting.

Context {A : Type} (compare : A → A → Z).

Lemma sort_insert_perm (x : A) (l : list A) : Permutation (sort_insert compare x l) (x :: l).
Proof.
  induction l as [|y l IH]; simpl; [done|].
  case_decide; [done|]. rewrite IH. apply perm_swap.
Qed.

Lemma Array_sort_perm (l : list A) : Permutation (Array_sort compare l) l.
Proof.
  induction l as [|x l IH]; simpl; [done|].
  rewrite sort_insert_perm. by constructor.
Qed.

Lemma Array_sort_length (l : list A) : length (Array_sort compare l) = length l.
Proof. apply Permutation_length, Array_sort_perm. Qed.

(** The comparator orders the array when "not after" is transitive. *)
Hypothesis compare_trans : ∀ x y z, compare x y ≤ 0 → compare y z ≤ 0 → compare x z ≤ 0.
Hypothesis compare_total : ∀ x y, 0 < compare x y → compare y x ≤ 0.

Lemma sort_insert_sorted (x : A) (l : list A) :
  StronglySorted (fun a b => compare a b ≤ 0) l →
  StronglySorted (fun a b => compare a b ≤ 0) (sort_insert compare x l).
Proof.
  induction 1 as [|y l Hsorted IH Hy]; simpl.
  - repeat constructor.
  - case_decide as Hxy.
    + constructor; [by constructor|].
      constructor; [done|]. eapply Forall_impl; [exact Hy|].
      intros z Hz. by eapply compare_trans.
    + constructor; [done|].
      assert (Hyx : compare y x ≤ 0) by (apply compare_total; lia).
      eapply Permutation_Forall; [symmetry; apply sort_insert_perm|].
      by constructor.
Qed.

Lemma Array_sort_sorted (l : list A) :
  StronglySorted (fun a b => compare a b ≤ 0) (Array_sort compare l).
Proof.
  induction l as [|x l IH]; simpl; [constructor|]. by apply sort_insert_sorted.
Qed.

End sorting.

Lemma StronglySorted_weaken {A} (R R' : A → A → Prop) (l : list A) :
  (∀ a b, R a b → R' a b) → StronglySorted R l → StronglySorted R' l.
Proof.
  intros HR. induction 1 as [|x l Hs IH Hx]; constructor; [done|].
  eapply Forall_impl; [exact Hx|]. auto.
Qed.

(** Stability: the elements of one class ([P]) whose members compare as
    "not after" one another keep the order they had in the input. *)
Lemma sort_insert_stable {A} (compare : A → A → Z) (P : A → Prop) `{∀ x, Decision (P x)}
    (x : A) (l : list A) :
  (∀ y, P x → P y → compare x y ≤ 0) →
  filter P (sort_insert compare x l) = filter P (x :: l).
Proof.
  intros Hclass. induction l as [|y l IH]; simpl; [done|].
  case_decide as Hxy; [done|].
  rewrite filter_cons, IH, !filter_cons.
  destruct (decide (P y)) as [Hy|]; [|done].
  destruct (decide (P x)) as [Hx|]; [|done].
  specialize (Hclass y Hx Hy). lia.
Qed.

Lemma Array_sort_stable {A} (compare : A → A → Z) (P : A → Prop) `{∀ x, Decision (P x)}
    (l : list A) :
  (∀ x y, P x → P y → compare x y ≤ 0) →
  filter P (Array_sort compare l) = filter P l.
Proof.
  intros Hclass. induction l as [|x l IH]; simpl; [done|].
  rewrite sort_insert_stable by auto. by rewrite !filter_cons, IH.
Qed.

(** A permutation of a sorted array whose keys are pairwise distinct is
    that array. *)
Lemma NoDup_fmap_inj {A B} (f : A → B) (l : list A) (a b : A) :
  NoDup (f <$> l) → a ∈ l → b ∈ l → f a = f b → a = b.
Proof.
  induction l as [|x l IH]; simpl; intros Hnd Ha Hb Hab; [by apply elem_of_nil in Ha|].
  apply NoDup_cons in Hnd as [Hx Hnd].
  apply elem_of_cons in Ha as [->|Ha]; apply elem_of_cons in Hb as [->|Hb]; try done.
  - exfalso. apply Hx. rewrite Hab. by apply list_elem_of_fmap_2.
  - exfalso. apply Hx. rewrite <- Hab. by apply list_elem_of_fmap_2.
  - by apply IH.
Qed.

Lemma sorted_perm_unique {A} (key : A → Z) (l1 l2 : list A) :
  NoDup (key <$> l1) →
  StronglySorted (fun a b => key a - key b ≤ 0) l1 →
  StronglySorted (fun a b => key a - key b ≤ 0) l2 →
  Permutation l1 l2 → l1 = l2.
Proof.
  revert l2. induction l1 as [|x l1 IH]; intros l2 Hnd Hs1 Hs2 Hperm.
  - by apply Permutation_nil in Hperm.
  - destruct l2 as [|y l2]; [by apply Permutation_sym, Permutation_nil in Hperm|].
    assert (Hx : x ∈ y :: l2) by (rewrite <- Hperm; left).
    assert (Hy : y ∈ x :: l1) by (rewrite Hperm; left).
    apply StronglySorted_inv in Hs1 as [Hs1 Hx1].
    apply StronglySorted_inv in Hs2 as [Hs2 Hy2].
    assert (key x = key y) as Hkey.
    { apply elem_of_cons in Hx as [->|Hx]; [done|].
      apply elem_of_cons in Hy as [->|Hy]; [done|].
      rewrite Forall_forall in Hx1, Hy2.
      specialize (Hx1 y Hy). specialize (Hy2 x Hx). lia. }
    assert (x = y) as <-.
    { eapply (NoDup_fmap_inj key (x :: l1)); [done|left|done|done]. }
    f_equal. apply IH; [|done|done|by eapply Permutation_cons_inv].
    simpl in Hnd. by apply NoDup_cons in Hnd as [_ Hnd].
Qed.

(** ** Block time statistics *)

Lemma Qc_of_Z_0 : Qc_of_Z 0 = 0%Qc.
Proof. by apply Qc_is_canon. Qed.

Lemma add_zero_l (x : Js.number) : Js.add zero x = x.
Proof.
  destruct x as [|q]; [done|]. unfold zero, Js.add, Js.of_Z. simpl.
  by rewrite Qc_of_Z_0, Qcplus_0_l.
Qed.

Lemma add_assoc (x y z : Js.number) : Js.add (Js.add x y) z = Js.add x (Js.add y z).
Proof.
  destruct x, y, z; try done. unfold Js.add. simpl. by rewrite Qcplus_assoc.
Qed.

Lemma add_comm (x y : Js.number) : Js.add x y = Js.add y x.
Proof. destruct x, y; try done. unfold Js.add. simpl. by rewrite Qcplus_comm. Qed.

(** [blockTimes.reduce((a, b) => a + b, 0)] is the sum of the array. *)
Lemma reduce_add_sum (xs : list Js.number) : reduce Js.add xs zero = number_sum xs.
Proof.
  unfold reduce, number_sum.
  assert (Hacc : ∀ a, fold_left Js.add xs a = Js.add a (foldr Js.add zero xs)).
  { induction xs as [|x xs IH]; intros a; simpl.
    - by rewrite add_comm, add_zero_l.
    - by rewrite IH, add_assoc. }
  by rewrite Hacc, add_zero_l.
Qed.





Lemma Math_min_NaN (d : Js.number) (ds : list Js.number) :
  NaN ∈ d :: ds → Math_min d ds = NaN.
Proof.
  unfold Math_min. revert d. induction ds as [|y ds IH]; intros d Hin.
  - by apply list_elem_of_singleton in Hin as <-.
  - cbn [fold_left]. apply IH.
    destruct d as [|a]; [left|]. destruct y as [|b]; [left|].
    apply elem_of_cons in Hin as [?|Hin]; [done|].
    apply elem_of_cons in Hin as [?|Hin]; [done|]. by right.
Qed.

Lemma Math_max_NaN (d : Js.number) (ds : list Js.number) :
  NaN ∈ d :: ds → Math_max d ds = NaN.
Proof.
  unfold Math_max. revert d. induction ds as [|y ds IH]; intros d Hin.
  - by apply list_elem_of_singleton in Hin as <-.
  - cbn [fold_left]. apply IH.
    destruct d as [|a]; [left|]. destruct y as [|b]; [left|].
    apply elem_of_cons in Hin as [?|Hin]; [done|].
    apply elem_of_cons in Hin as [?|Hin]; [done|]. by right.
Qed.

Lemma deltas_cons2 (x0 x1 : Js.number) (rest : list Js.number) :
  deltas (x0 :: x1 :: rest) = Js.sub x1 x0 :: deltas (x1 :: rest).
Proof. reflexivity. Qed.

(** The indexed loop computes the consecutive differences. *)
Lemma blockTimes_deltas (sortedBlocks : list Block) :
  blockTimes sortedBlocks = deltas (timestamps sortedBlocks).
Proof.
  unfold blockTimes, timestamps.
  induction sortedBlocks as [|a l IH]; [done|].
  destruct l as [|b l]; [done|].
  change (map ?g (a :: b :: l)) with (g a :: map g (b :: l)).
  change (deltas (?x0 :: map ?g (b :: l))) with (Js.sub (g b) x0 :: deltas (map g (b :: l))).
  rewrite <- IH. simpl length.
  replace (S (S (length l)) - 1)%nat with (S (length l)) by lia.
  replace (S (length l) - 1)%nat with (length l) by lia.
  change (seq 1 (S (length l))) with (1%nat :: seq 2 (length l)).
  rewrite map_cons. f_equal.
  rewrite <- seq_shift, map_map.
  apply map_ext_in. intros i Hi. apply in_seq in Hi.
  destruct i as [|i]; [lia|]. cbn [Nat.sub].
  by rewrite Nat.sub_0_r.
Qed.

Lemma blockTimes_length (sortedBlocks : list Block) :
  length (blockTimes sortedBlocks) = (length sortedBlocks - 1)%nat.
Proof. unfold blockTimes. by rewrite length_map, length_seq. Qed.

Lemma number_eqb_refl (x : Js.number) : number_eqb x x = true.
Proof. destruct x; [done|]. apply Qeq_bool_iff. reflexivity. Qed.

Lemma number_eqb_neq (x y : Js.number) : number_eqb x y = false → x ≠ y.
Proof. intros H ->. by rewrite number_eqb_refl in H. Qed.

(** C5 as stated: the result does not depend on the order of the input.
    Two blocks of the same [number] keep their input order through the
    stable sort, so swapping them changes the deltas: from [10, 10] to
    [20, -10]. *)
Lemma computeBlockTimeStats_depends_on_order :
  Permutation [blk 1 "0"; blk 2 "10"; blk 2 "20"] [blk 1 "0"; blk 2 "20"; blk 2 "10"]
  ∧ computeBlockTimeStats [blk 1 "0"; blk 2 "10"; blk 2 "20"]
    ≠ computeBlockTimeStats [blk 1 "0"; blk 2 "20"; blk 2 "10"].
Proof.
  split; [constructor; apply perm_swap|].
  intros H. apply (f_equal minBlockTimeSeconds) in H. revert H.
  apply number_eqb_neq. vm_compute. reflexivity.
Qed.

(** C5, amended: fewer than two blocks give the zero statistics with
    [totalBlocks] the input length; two or more give the mean, the least
    and the greatest of the consecutive timestamp differences (negative
    ones included) of the blocks stably sorted by ascending [number], with
    [totalBlocks] the input length; and the result is the same for every
    ordering of the input provided the block numbers are pairwise
    distinct. *)
Theorem computeBlockTimeStats_spec (blocks : list Block) :
  ((length blocks < 2)%nat →
   computeBlockTimeStats blocks = mkBlockTimeStats zero zero zero (length blocks))
  ∧ ((2 ≤ length blocks)%nat →
     ∃ sorted d ds,
       Permutation sorted blocks
       ∧ StronglySorted (fun a b => number a ≤ number b) sorted
       ∧ (∀ n, filter (fun b => number b = n) sorted = filter (fun b => number b = n) blocks)
       ∧ deltas (timestamps sorted) = d :: ds
       ∧ computeBlockTimeStats blocks
         = mkBlockTimeStats (mean (d :: ds)) (Math_min d ds) (Math_max d ds) (length blocks))
  ∧ (∀ blocks', NoDup (number <$> blocks) → Permutation blocks blocks' →
     computeBlockTimeStats blocks' = computeBlockTimeStats blocks).
Proof.
  split; [|split].
  - intros Hlen. unfold computeBlockTimeStats. by case_decide; [|lia].
  - intros Hlen. unfold computeBlockTimeStats. case_decide; [lia|].
    pose proof (blockTimes_length (Array_sort by_number blocks)) as Hbt.
    rewrite Array_sort_length in Hbt.
    destruct (blockTimes (Array_sort by_number blocks)) as [|d ds] eqn:Heq;
      [simpl in Hbt; lia|].
    exists (Array_sort by_number blocks), d, ds. split_and!.
    + apply Array_sort_perm.
    + eapply StronglySorted_weaken; [|apply Array_sort_sorted; intros; lia].
      intros a b. simpl. lia.
    + intros n. apply Array_sort_stable. intros x y. lia.
    + by rewrite <- blockTimes_deltas.
    + by rewrite reduce_add_sum.
  - intros blocks' Hnd Hperm.
    assert (Array_sort by_number blocks = Array_sort by_number blocks') as Hsort.
    { apply (sorted_perm_unique number).
      - eapply NoDup_Permutation_proper; [|exact Hnd].
        apply fmap_Permutation, Array_sort_perm.
      - apply Array_sort_sorted; intros; lia.
      - apply Array_sort_sorted; intros; lia.
      - by rewrite !Array_sort_perm. }
    unfold computeBlockTimeStats.
    by rewrite Hsort, (Permutation_length Hperm).
Qed.

Lemma computeBlockTimeStats_spec_witness :
  computeBlockTimeStats [blk 100 "1000"] = mkBlockTimeStats zero zero zero 1
  ∧ (∃ sorted d ds,
       Permutation sorted [blk 101 "1010"; blk 100 "1000"; blk 102 "1025"]
       ∧ StronglySorted (fun a b => number a ≤ number b) sorted
       ∧ (∀ n, filter (fun b => number b = n) sorted
               = filter (fun b => number b = n) [blk 101 "1010"; blk 100 "1000"; blk 102 "1025"])
       ∧ deltas (timestamps sorted) = d :: ds
       ∧ computeBlockTimeStats [blk 101 "1010"; blk 100 "1000"; blk 102 "1025"]
         = mkBlockTimeStats (mean (d :: ds)) (Math_min d ds) (Math_max d ds) 3)
  ∧ computeBlockTimeStats [blk 101 "1010"; blk 100 "1000"]
    = computeBlockTimeStats [blk 100 "1000"; blk 101 "1010"].
Proof.
  split; [|split].
  - apply (proj1 (computeBlockTimeStats_spec [blk 100 "1000"])). simpl. lia.
  - apply (proj1 (proj2 (computeBlockTimeStats_spec
                           [blk 101 "1010"; blk 100 "1000"; blk 102 "1025"]))).
    simpl. lia.
  - apply (proj2 (proj2 (computeBlockTimeStats_spec [blk 100 "1000"; blk 101 "1010"]))).
    + apply (bool_decide_unpack _). vm_compute. reflexivity.
    + apply perm_swap.
Defined.

(** ** Contract deployments *)



(** ** Active addresses *)

Lemma truthy_iff (s : string) : truthy s = true ↔ s ≠ "".
Proof. destruct s; simpl; split; intros H; done. Qed.

Lemma senders_of_cons (t : Transaction) (l : list Transaction) :
  senders_of (t :: l)
  = (if truthy (from t) then {[toLowerCase (from t)]} ∪ senders_of l else senders_of l).
Proof.
  unfold senders_of. rewrite fmap_cons, filter_cons.
  destruct (from t) as [|c s]; case_decide as H; simpl; done.
Qed.

Lemma receivers_of_cons (t : Transaction) (l : list Transaction) :
  receivers_of (t :: l)
  = (if truthy_opt (to t) then {[toLowerCase (default "" (to t))]} ∪ receivers_of l
     else receivers_of l).
Proof.
  unfold receivers_of. simpl.
  destruct (to t) as [[|c s]|]; simpl; try rewrite filter_cons; try case_decide; done.
Qed.

(** Who is in the two sets. *)
Lemma elem_of_senders_of (a : string) (transactions : list Transaction) :
  a ∈ senders_of transactions
  ↔ ∃ t, t ∈ transactions ∧ from t ≠ "" ∧ a = toLowerCase (from t).
Proof.
  unfold senders_of. rewrite elem_of_list_to_set, list_elem_of_fmap. split.
  - intros (s & -> & Hs). apply list_elem_of_filter in Hs as [Hne Hs].
    apply list_elem_of_fmap in Hs as (t & -> & Ht). eauto.
  - intros (t & Ht & Hne & ->). exists (from t). split; [done|].
    apply list_elem_of_filter. split; [done|]. by apply list_elem_of_fmap_2.
Qed.

Lemma elem_of_receivers_of (a : string) (transactions : list Transaction) :
  a ∈ receivers_of transactions
  ↔ ∃ t r, t ∈ transactions ∧ to t = Some r ∧ r ≠ "" ∧ a = toLowerCase r.
Proof.
  unfold receivers_of. rewrite elem_of_list_to_set, list_elem_of_fmap. split.
  - intros (s & -> & Hs). apply list_elem_of_filter in Hs as [Hne Hs].
    apply list_elem_of_omap in Hs as (t & Ht & Hto). eauto 6.
  - intros (t & r & Ht & Hto & Hne & ->). exists r. split; [done|].
    apply list_elem_of_filter. split; [done|]. apply list_elem_of_omap. eauto.
Qed.

Lemma AddressSets_eq (S S' R R' All All' : gset string) :
  S = S' → R = R' → All = All' → (S, R, All) = (S', R', All').
Proof. congruence. Qed.

(** The three sets after the [forEach], from any three sets before it. *)
Lemma activeAddresses_fold (transactions : list Transaction) (S R All : gset string) :
  fold_left activeAddresses_step transactions (S, R, All)
  = (senders_of transactions ∪ S, receivers_of transactions ∪ R,
     senders_of transactions ∪ receivers_of transactions ∪ All).
Proof.
  revert S R All. induction transactions as [|t l IH]; intros S R All.
  - simpl. apply AddressSets_eq; set_solver.
  - cbn [fold_left]. rewrite senders_of_cons, receivers_of_cons.
    unfold activeAddresses_step.
    destruct (truthy (from t)); destruct (to t) as [r|]; simpl;
      try destruct (truthy r); rewrite IH; apply AddressSets_eq; set_solver.
Qed.

(** C7: the three reported sizes are those of the set of lowercased
    non-empty [from], of the set of lowercased non-empty non-null [to],
    and of their union. *)
Theorem computeActiveAddresses_spec (transactions : list Transaction) :
  computeActiveAddresses transactions
  = mkActiveAddressesStats
      (size (senders_of transactions ∪ receivers_of transactions))
      (size (senders_of transactions))
      (size (receivers_of transactions)).
Proof.
  unfold computeActiveAddresses. rewrite activeAddresses_fold.
  f_equal; f_equal; set_solver.
Qed.

(** Two spellings of one address count once; an empty [from] and a null
    or empty [to] count nowhere. *)
Example computeActiveAddresses_case :
  computeActiveAddresses
    [mkTransaction "0x1" "0xAB" (Some "0xCd") None None "" "" "";
     mkTransaction "0x2" "0xab" (Some "0xcD") None None "" "" "";
     mkTransaction "0x3" "" None None None "" "" "";
     mkTransaction "0x4" "" (Some "") None None "" "" ""]
  = mkActiveAddressesStats 2 1 1.
Proof. vm_compute. reflexivity. Qed.

(** ** Top addresses *)

Section assoc.

Variable g : string → Z.

Lemma Map_get_tabulate (a : string) (keys : list string) :
  Map_get a (map (fun b => (b, g b)) keys) = if decide (a ∈ keys) then Some (g a) else None.
Proof.
  induction keys as [|k keys IH]; simpl; [done|].
  destruct (decide (k = a)) as [->|Hne].
  - by rewrite decide_True by left.
  - rewrite IH. destruct (decide (a ∈ keys)) as [Hin|Hnin].
    + by rewrite decide_True by (by right).
    + rewrite decide_False; [done|]. intros [->|H]%elem_of_cons; done.
Qed.

Lemma Map_set_absent (a : string) (v : Z) (keys : list string) :
  a ∉ keys →
  Map_set a v (map (fun b => (b, g b)) keys) = map (fun b => (b, g b)) keys ++ [(a, v)].
Proof.
  induction keys as [|k keys IH]; simpl; intros Hnin; [done|].
  apply not_elem_of_cons in Hnin as [Hne Hnin].
  rewrite decide_False by done. by rewrite IH.
Qed.

Lemma Map_set_present (a : string) (v : Z) (keys : list string) :
  NoDup keys → a ∈ keys →
  Map_set a v (map (fun b => (b, g b)) keys)
  = map (fun b => (b, if decide (b = a) then v else g b)) keys.
Proof.
  induction keys as [|k keys IH]; simpl; intros Hnd Hin; [by apply elem_of_nil in Hin|].
  apply NoDup_cons in Hnd as [Hk Hnd].
  destruct (decide (k = a)) as [->|Hne].
  - f_equal. apply map_ext_in. intros b Hb%list_elem_of_In.
    rewrite decide_False; [done|]. by intros ->.
  - f_equal. apply IH; [done|]. apply elem_of_cons in Hin as [->|Hin]; done.
Qed.

End assoc.

Lemma elem_of_first_seen (a : string) (l : list string) : a ∈ first_seen l ↔ a ∈ l.
Proof.
  induction l as [|x l IH]; simpl; [done|].
  rewrite !elem_of_cons, list_elem_of_filter, IH.
  destruct (decide (a = x)); naive_solver.
Qed.

Lemma NoDup_first_seen (l : list string) : NoDup (first_seen l).
Proof.
  induction l as [|x l IH]; simpl; constructor.
  - rewrite list_elem_of_filter. naive_solver.
  - by apply NoDup_filter.
Qed.

Lemma first_seen_snoc (l : list string) (a : string) :
  first_seen (l ++ [a]) = if decide (a ∈ l) then first_seen l else first_seen l ++ [a].
Proof.
  induction l as [|x l IH]; simpl; [done|]. rewrite IH.
  destruct (decide (a = x)) as [->|Hne].
  - rewrite (decide_True (P := x ∈ x :: l)) by left. destruct (decide (x ∈ l)); [done|].
    rewrite filter_app, filter_cons, decide_False by naive_solver.
    by rewrite filter_nil, app_nil_r.
  - destruct (decide (a ∈ l)) as [Hin|Hnin].
    + by rewrite (decide_True (P := a ∈ x :: l)) by (by right).
    + rewrite (decide_False (P := a ∈ x :: l)) by (intros [->|H]%elem_of_cons; done).
      by rewrite filter_app, filter_cons, decide_True by done.
Qed.

Lemma count_snoc (b a : string) (l : list string) :
  count b (l ++ [a]) = count b l + (if decide (a = b) then 1 else 0).
Proof.
  unfold count. rewrite filter_app, length_app, filter_cons.
  case_decide; simpl; lia.
Qed.

Lemma count_absent (a : string) (l : list string) : a ∉ l → count a l = 0.
Proof.
  intros Hnin. unfold count.
  assert (filter (fun b => b = a) l = []) as ->; [|done].
  induction l as [|x l IH]; [done|].
  apply not_elem_of_cons in Hnin as [Hne Hnin].
  rewrite filter_cons, decide_False by done. by apply IH.
Qed.

Lemma count_pos (a : string) (l : list string) : a ∈ l → 0 < count a l.
Proof.
  intros Hin. unfold count.
  assert (a ∈ filter (fun b => b = a) l) as H by (by apply list_elem_of_filter).
  destruct (filter (fun b => b = a) l); [by apply elem_of_nil in H | simpl; lia].
Qed.

(** One more occurrence is one [bump] of the map. *)
Lemma tally_snoc (l : list string) (a : string) : tally (l ++ [a]) = bump a (tally l).
Proof.
  unfold tally, bump. rewrite Map_get_tabulate, first_seen_snoc.
  destruct (decide (a ∈ l)) as [Hin|Hnin].
  - rewrite decide_True by (by apply elem_of_first_seen).
    rewrite Map_set_present by (by apply NoDup_first_seen || by apply elem_of_first_seen).
    apply map_ext_in. intros b _. f_equal. rewrite count_snoc.
    unfold or_zero. pose proof (count_pos a l Hin).
    destruct (decide (b = a)) as [->|Hne].
    + rewrite decide_True by done. case_decide; lia.
    + rewrite decide_False by done. lia.
  - rewrite decide_False by (by rewrite elem_of_first_seen).
    rewrite Map_set_absent by (by rewrite elem_of_first_seen).
    rewrite map_app. simpl. f_equal.
    + apply map_ext_in. intros b Hb. f_equal.
      apply list_elem_of_In in Hb. rewrite elem_of_first_seen in Hb.
      rewrite count_snoc, decide_False; [lia|]. intros Heq. apply Hnin. by rewrite Heq.
    + by rewrite count_snoc, count_absent, decide_True.
Qed.

Lemma fold_bump_tally (l : list string) :
  fold_left (fun m a => bump a m) l [] = tally l.
Proof.
  induction l as [|a l IH] using rev_ind; [done|].
  by rewrite fold_left_app, IH, tally_snoc.
Qed.

(** The [forEach] of the source bumps the map once per occurrence. *)
Lemma topAddresses_step_bumps (m : JsMap) (t : Transaction) :
  topAddresses_step m t = fold_left (fun m a => bump a m) (occurrences_of t) m.
Proof.
  unfold topAddresses_step, occurrences_of.
  destruct (from t) as [|c s]; destruct (to t) as [[|c' s']|]; reflexivity.
Qed.

Lemma topAddresses_fold (transactions : list Transaction) (m : JsMap) :
  fold_left topAddresses_step transactions m
  = fold_left (fun m a => bump a m) (occurrences transactions) m.
Proof.
  revert m. induction transactions as [|t l IH]; intros m; [done|].
  unfold occurrences in *. simpl. by rewrite fold_left_app, IH, topAddresses_step_bumps.
Qed.

Lemma slice0_take {A} (l : list A) (limit : Z) : 0 ≤ limit → slice0 l limit = take (Z.to_nat limit) l.
Proof.
  intros Hlimit. unfold slice0. rewrite decide_False by lia.
  destruct (decide (limit ≤ Z.of_nat (length l))).
  - by rewrite Z.min_l by lia.
  - rewrite Z.min_r, Nat2Z.id by lia. rewrite !take_ge; [done|lia|lia].
Qed.

(** C6 as stated, for every limit: a negative [limit] is an index from
    the end, as [slice] has it. With three distinct addresses and
    [limit = -1] two entries are returned: neither the first [limit]
    entries, which would be none, nor all three. *)
Lemma computeTopAddresses_negative_limit :
  computeTopAddresses
    [tx "0xA" "0xB" "0" "1"; tx "0xA" "0xC" "0" "1"; tx "0xA" "0xB" "0" "1"] (Some (-1))
  = [mkTopAddress "0xa" 3; mkTopAddress "0xb" 2]
  ∧ computeTopAddresses
      [tx "0xA" "0xB" "0" "1"; tx "0xA" "0xC" "0" "1"; tx "0xA" "0xB" "0" "1"] (Some 3)
    = [mkTopAddress "0xa" 3; mkTopAddress "0xb" 2; mkTopAddress "0xc" 1]
  ∧ computeTopAddresses
      [tx "0xA" "0xB" "0" "1"; tx "0xA" "0xC" "0" "1"; tx "0xA" "0xB" "0" "1"] (Some (-1))
    ≠ take (Z.to_nat (-1))
        (computeTopAddresses
           [tx "0xA" "0xB" "0" "1"; tx "0xA" "0xC" "0" "1"; tx "0xA" "0xB" "0" "1"] (Some 3)).
Proof. vm_compute. split_and!; [reflexivity | reflexivity | discriminate]. Qed.

(** C6, amended: for a [limit] that is not negative, the map holds every
    distinct lowercased address with its number of occurrences (a
    non-empty [from] and a non-empty [to] are one occurrence each, so
    [from = to] counts twice), in the order of first appearance; the
    result lists these entries by descending count, equal counts in the
    order of first appearance, cut to the first [limit] entries (5 when
    [limit] is omitted), which is all of them when there are no more than
    [limit]. *)
Theorem computeTopAddresses_spec (transactions : list Transaction) (limit : Z) :
  0 ≤ limit →
  ∃ sorted : list (string * Z),
    Permutation sorted (tally (occurrences transactions))
    ∧ StronglySorted (fun a b => b.2 ≤ a.2) sorted
    ∧ (∀ c, filter (fun e => e.2 = c) sorted
            = filter (fun e => e.2 = c) (tally (occurrences transactions)))
    ∧ computeTopAddresses transactions (Some limit) = entry <$> take (Z.to_nat limit) sorted
    ∧ computeTopAddresses transactions None = entry <$> take 5 sorted
    ∧ ((length (first_seen (occurrences transactions)) ≤ Z.to_nat limit)%nat →
       computeTopAddresses transactions (Some limit) = entry <$> sorted).
Proof.
  intros Hlimit.
  assert (Hmap : ∀ l : list (string * Z),
            map (fun '(address, transactionCount) => mkTopAddress address transactionCount) l
            = entry <$> l).
  { intros l. apply map_ext. by intros [a c]. }
  exists (Array_sort by_count_desc (tally (occurrences transactions))). split_and!.
  - apply Array_sort_perm.
  - eapply StronglySorted_weaken; [|apply Array_sort_sorted; intros; lia].
    intros a b. simpl. lia.
  - intros c. apply Array_sort_stable. intros x y. lia.
  - unfold computeTopAddresses. simpl.
    by rewrite topAddresses_fold, fold_bump_tally, Hmap, slice0_take.
  - unfold computeTopAddresses. simpl.
    by rewrite topAddresses_fold, fold_bump_tally, Hmap, slice0_take.
  - intros Hfew. unfold computeTopAddresses. simpl.
    rewrite topAddresses_fold, fold_bump_tally, Hmap, slice0_take by done.
    rewrite take_ge; [done|].
    rewrite Array_sort_length. unfold tally. by rewrite length_map.
Qed.

Lemma computeTopAddresses_spec_witness :
  ∃ sorted : list (string * Z),
    Permutation sorted (tally ["0xa"; "0xb"; "0xa"; "0xc"; "0xb"; "0xc"])
    ∧ StronglySorted (fun a b => b.2 ≤ a.2) sorted
    ∧ (∀ c, filter (fun e => e.2 = c) sorted
            = filter (fun e => e.2 = c) (tally ["0xa"; "0xb"; "0xa"; "0xc"; "0xb"; "0xc"]))
    ∧ computeTopAddresses
        [tx "0xA" "0xB" "0" "1"; tx "0xA" "0xC" "0" "1"; tx "0xB" "0xC" "0" "1"] (Some 4)
      = entry <$> take 4 sorted
    ∧ computeTopAddresses
        [tx "0xA" "0xB" "0" "1"; tx "0xA" "0xC" "0" "1"; tx "0xB" "0xC" "0" "1"] None
      = entry <$> take 5 sorted
    ∧ computeTopAddresses
        [tx "0xA" "0xB" "0" "1"; tx "0xA" "0xC" "0" "1"; tx "0xB" "0xC" "0" "1"] (Some 4)
      = entry <$> sorted.
Proof.
  destruct (computeTopAddresses_spec
              [tx "0xA" "0xB" "0" "1"; tx "0xA" "0xC" "0" "1"; tx "0xB" "0xC" "0" "1"] 4
              ltac:(lia)) as (sorted & Hperm & Hsorted & Hstable & Hlimit & Hdefault & Hall).
  exists sorted. split_and!; try done. apply Hall. simpl. lia.
Defined.

(** A transaction from an address to itself counts twice; equal counts
    keep the order of first appearance. *)
Example computeTopAddresses_self_and_ties :
  computeTopAddresses
    [tx "0xC" "0xB" "0" "1"; tx "0xA" "0xa" "0" "1"; tx "0xB" "0xC" "0" "1"] None
  = [mkTopAddress "0xc" 2; mkTopAddress "0xb" 2; mkTopAddress "0xa" 2].
Proof. vm_compute. reflexivity. Qed.

(** ** [retryWithBackoff] *)

Section retry_properties.

Context {W T : Type}.
Variable sleep : Z → W → W.
Variable fn : Async W T.
Variables maxRetries initialDelay : Z.

Local Abbreviation loop := (retry_loop sleep fn maxRetries initialDelay).
Local Abbreviation Unknown := (new_Error "Unknown error occurred").

(** The loop, one iteration unfolded. *)
Lemma retry_loop_body (attempt : Z) (lastError : option Error) (w : W) :
  loop attempt lastError w
  = if decide (attempt < maxRetries) then
      match fn w with
      | (Resolved v, w1) => (Resolved v, w1, [Invoke])
      | (Rejected error, w1) =>
          if decide (attempt < maxRetries - 1) then
            let delay := initialDelay * 2 ^ attempt in
            let '(r, w2, trace) := loop (attempt + 1) (Some (toError error)) (sleep delay w1) in
            (r, w2, Invoke :: Wait delay :: trace)
          else
            let '(r, w2, trace) := loop (attempt + 1) (Some (toError error)) w1 in
            (r, w2, Invoke :: trace)
      end
    else (Rejected (ThrownError (default Unknown lastError)), w, []).
Proof.
  simp retry_loop. destruct (decide (attempt < maxRetries)); simpl; [|done].
  destruct (fn w) as [[v|error] w1]; simpl; [done|].
  destruct (decide (attempt < maxRetries - 1)); reflexivity.
Qed.

(** Past the budget the loop does nothing and throws what it holds. *)
Lemma retry_loop_done (attempt : Z) (lastError : option Error) (w : W) :
  maxRetries ≤ attempt →
  loop attempt lastError w = (Rejected (ThrownError (default Unknown lastError)), w, []).
Proof. intros H. rewrite retry_loop_body. by rewrite decide_False by lia. Qed.

Lemma invocations_Invoke (trace : list Event) :
  invocations (Invoke :: trace) = S (invocations trace).
Proof. reflexivity. Qed.

Lemma invocations_Wait (delay : Z) (trace : list Event) :
  invocations (Wait delay :: trace) = invocations trace.
Proof. reflexivity. Qed.


Lemma backoff_trace_S (attempt : Z) (k : nat) :
  backoff_trace initialDelay attempt (S k)
  = Invoke :: Wait (initialDelay * 2 ^ attempt) :: backoff_trace initialDelay (attempt + 1) k.
Proof.
  unfold backoff_trace. cbn [seq flat_map]. rewrite Z.add_0_r. simpl. do 2 f_equal.
  rewrite <- seq_shift, flat_map_concat_map, map_map, <- flat_map_concat_map.
  f_equal. apply flat_map_ext. intros j.
  by replace (attempt + Z.of_nat (S j)) with (attempt + 1 + Z.of_nat j) by lia.
Qed.

Lemma invocations_backoff_trace (attempt : Z) (k : nat) :
  invocations (backoff_trace initialDelay attempt k) = S k.
Proof.
  revert attempt. induction k as [|k IH]; intros attempt; [done|].
  by rewrite backoff_trace_S, invocations_Invoke, invocations_Wait, IH.
Qed.

(** A first success at the [k]-th invocation to come ends the loop
    there. *)
Lemma retry_loop_success (k : nat) (attempt : Z) (lastError : option Error) (w : W)
    (v : T) (w' : W) :
  attempt + Z.of_nat k < maxRetries →
  (∀ j, (j < k)%nat → rejects (attempt_from sleep fn initialDelay attempt j w)) →
  attempt_from sleep fn initialDelay attempt k w = (Resolved v, w') →
  loop attempt lastError w = (Resolved v, w', backoff_trace initialDelay attempt k).
Proof.
  revert attempt lastError w. induction k as [|k IH]; intros attempt lastError w Hlt Hrej Hk.
  - simpl in Hk. rewrite retry_loop_body, decide_True, Hk by lia. done.
  - pose proof (Hrej 0%nat ltac:(lia)) as H0. unfold rejects in H0. simpl in H0, Hk.
    rewrite retry_loop_body, decide_True by lia.
    destruct (fn w) as [[v0|error] w1] eqn:Hfn; [done|]. simpl in Hk.
    rewrite decide_True by lia. cbv zeta.
    rewrite (IH (attempt + 1) (Some (toError error)) (sleep (initialDelay * 2 ^ attempt) w1));
      [by rewrite backoff_trace_S | lia | | exact Hk].
    intros j Hj. specialize (Hrej (S j) ltac:(lia)). simpl in Hrej. by rewrite Hfn in Hrej.
Qed.


End retry_properties.




(** C10: with [maxRetries <= 0] the operation is never invoked, and the
    helper throws the Error "Unknown error occurred". *)
Theorem retryWithBackoff_no_budget {W T : Type} (sleep : Z → W → W) (fn : Async W T)
    (maxRetries initialDelay : Z) (w : W) :
  maxRetries ≤ 0 →
  retryWithBackoff sleep fn maxRetries initialDelay w
  = (Rejected (ThrownError (new_Error "Unknown error occurred")), w, []).
Proof. intros Hm. unfold retryWithBackoff. by rewrite retry_loop_done by lia. Qed.

Lemma retryWithBackoff_no_budget_witness :
  retryWithBackoff (fun _ w => w) (succeeds_at 1) 0 1000 0%nat
  = (Rejected (ThrownError (new_Error "Unknown error occurred")), 0%nat, [])
  ∧ retryWithBackoff (fun _ w => w) (succeeds_at 1) (-2) 1000 0%nat
    = (Rejected (ThrownError (new_Error "Unknown error occurred")), 0%nat, []).
Proof.
  split.
  - apply (retryWithBackoff_no_budget (fun _ w => w) (succeeds_at 1) 0 1000 0%nat). lia.
  - apply (retryWithBackoff_no_budget (fun _ w => w) (succeeds_at 1) (-2) 1000 0%nat). lia.
Defined.

(** ** The fetch loop of [main] *)

Lemma analyzedBlocks_take (blocks : list Block) : analyzedBlocks blocks = take 20 blocks.
Proof.
  unfold analyzedBlocks. rewrite slice0_take by lia.
  destruct (decide (20 ≤ length blocks)%nat).
  - by rewrite Z.min_l by lia.
  - rewrite Z.min_r, Nat2Z.id by lia. by rewrite !take_ge by lia.
Qed.

Section main_properties.

Context {W : Type}.
Variable sleep : Z → W → W.
Variable getLatestBlocks : Js.number → Async W (list Block).
Variable getTransactions : Z → Z → Async W (list Transaction).

Lemma requested_app (log1 log2 : list MainEvent) :
  requested (log1 ++ log2) = requested log1 ++ requested log2.
Proof. unfold requested. apply omap_app. Qed.

(** The loop requests each block once, in order, and appends what the
    successful fetches resolve to. *)
Lemma fetch_fold (blocks : list Block) (transactions : list Transaction) (w : W)
    (log : list MainEvent) :
  ∃ w', fold_left (fetch_step sleep getTransactions) blocks (transactions, w, log)
        = (transactions ++ collected sleep getTransactions blocks w, w',
           (fold_left (fetch_step sleep getTransactions) blocks (transactions, w, log)).2)
        ∧ requested (fold_left (fetch_step sleep getTransactions) blocks (transactions, w, log)).2
          = requested log ++ (number <$> blocks).
Proof.
  revert transactions w log. induction blocks as [|b bs IH]; intros transactions w log.
  - exists w. simpl. by rewrite !app_nil_r.
  - cbn [fold_left collected]. unfold fetch_step at 2 4 6.
    destruct (retryWithBackoff sleep (getTransactions (number b) 100) 3 1000 w)
      as [[[blockTxs|reason] w1] trace].
    + destruct (IH (transactions ++ blockTxs) w1
                   (log ++ [RequestTransactions (number b) 100 trace])) as (w' & Hfold & Hreq).
      exists w'. split.
      * rewrite Hfold at 1. by rewrite <- app_assoc.
      * rewrite Hreq, requested_app. simpl. by rewrite <- app_assoc.
    + destruct (IH transactions w1
                   (log ++ [RequestTransactions (number b) 100 trace; Warn (number b)]))
        as (w' & Hfold & Hreq).
      exists w'. split.
      * by rewrite Hfold at 1.
      * rewrite Hreq, requested_app. simpl. by rewrite <- app_assoc.
Qed.

End main_properties.



(** The run of the witness: 22 blocks are listed, the first 20 are
    requested, the fetch for block 3 fails three times and is skipped. *)
Example main_demo_requested :
  requested (main (fun _ w => w) demo_getLatestBlocks demo_getTransactions (Some "22") tt).2
  = [1; 2; 3; 4; 5; 6; 7; 8; 9; 10; 11; 12; 13; 14; 15; 16; 17; 18; 19; 20]
  ∧ match (main (fun _ w => w) demo_getLatestBlocks demo_getTransactions (Some "22") tt).1.1 with
    | Completed _ transactions _ => length transactions = 19%nat
    | Exit _ => False
    end.
Proof. vm_compute. split; reflexivity. Qed.

(** * Further properties of the code *)

(** ** Transaction volume *)


Lemma Zsum_app (l1 l2 : list Z) : Zsum (l1 ++ l2) = Zsum l1 + Zsum l2.
Proof. unfold Zsum. induction l1 as [|x l1 IH]; simpl; lia. Qed.

Lemma Zsum_perm (l1 l2 : list Z) : Permutation l1 l2 → Zsum l1 = Zsum l2.
Proof. unfold Zsum. induction 1; simpl; lia. Qed.


Lemma Qc_of_nat_nonzero (n : nat) : n ≠ 0%nat → Qc_of_Z (Z.of_nat n) ≠ Qc_of_Z 0.
Proof. intros Hn H. apply Z2Qc_inj in H. lia. Qed.

Lemma div_of_nat (a : Qc) (n : nat) :
  n ≠ 0%nat → Js.div (Fin a) (Js.of_nat n) = Fin (a / Qc_of_Z (Z.of_nat n))%Qc.
Proof.
  intros Hn. unfold Js.div, Js.of_nat, Js.of_Z.
  by rewrite decide_False by (by apply Qc_of_nat_nonzero).
Qed.



(** ** Gas price and value statistics: order and permutations *)

(** Both functions as one expression of the positive amounts. *)
Lemma computeTransactionValueStats_amounts (transactions : list Transaction) :
  computeTransactionValueStats transactions
  = Return match valuesWei transactions with
           | [] => mkTransactionValueStats zero zero zero zero (length transactions)
           | (_ :: _) as amounts =>
               mkTransactionValueStats
                 (weiToEth (Zsum amounts))
                 (weiToEth (Z.quot (Zsum amounts) (Z.of_nat (length amounts))))
                 (weiToEth (minimum amounts)) (weiToEth (maximum amounts))
                 (length transactions)
           end.
Proof.
  unfold computeTransactionValueStats. case_decide as Hlen.
  - destruct transactions; [done | discriminate Hlen].
  - cbv zeta. destruct (valuesWei transactions) as [|first rest]; [done|].
    rewrite bigint_div_length, bind_Return.
    by rewrite reduce_sum, reduce_min, reduce_max.
Qed.

Lemma computeAverageGasPrice_amounts (transactions : list Transaction) :
  computeAverageGasPrice transactions
  = amounts ← gasPricesWei transactions;
    Return match amounts with
           | [] => mkGasPriceStats zero zero zero (length transactions)
           | _ :: _ =>
               mkGasPriceStats
                 (weiToGwei (Z.quot (Zsum amounts) (Z.of_nat (length amounts))))
                 (weiToGwei (minimum amounts)) (weiToGwei (maximum amounts))
                 (length transactions)
           end.
Proof.
  unfold computeAverageGasPrice. case_decide as Hlen.
  - destruct transactions; [done | discriminate Hlen].
  - destruct (gasPricesWei transactions) as [[|first rest]|e]; [done| |done].
    rewrite !bind_Return. cbv beta iota.
    rewrite bigint_div_length, bind_Return.
    by rewrite reduce_sum, reduce_min, reduce_max.
Qed.

(** Only positive amounts pass the filter. *)
Lemma valuesWei_positive (transactions : list Transaction) :
  Forall (fun amount => 0 < amount) (valuesWei transactions).
Proof. unfold valuesWei. apply Forall_forall. by intros x [? _]%list_elem_of_filter. Qed.

Lemma gasPricesWei_positive (transactions : list Transaction) (amounts : list Z) :
  gasPricesWei transactions = Return amounts → Forall (fun amount => 0 < amount) amounts.
Proof.
  unfold gasPricesWei. destruct (mapM _ transactions) as [prices|e]; [|done].
  rewrite bind_Return. intros [= <-]. apply Forall_forall.
  by intros x [? _]%list_elem_of_filter.
Qed.

(** The sum lies between the count times a lower and the count times an
    upper bound of the elements; a sum of positive numbers is no less than
    any of them. *)
Lemma Zsum_bounds (l : list Z) (lo hi : Z) :
  Forall (fun x => lo ≤ x ≤ hi) l →
  Z.of_nat (length l) * lo ≤ Zsum l ≤ Z.of_nat (length l) * hi.
Proof. unfold Zsum. induction 1 as [|x l Hx _ IH]; simpl length; simpl foldr; lia. Qed.

Lemma Zsum_ge_elem (l : list Z) (x : Z) :
  Forall (fun y => 0 < y) l → x ∈ l → x ≤ Zsum l.
Proof.
  unfold Zsum. induction 1 as [|y l Hy Hl IH]; intros Hx; [by apply elem_of_nil in Hx|].
  assert (0 ≤ foldr Z.add 0 l).
  { clear IH Hx. induction Hl as [|z l Hz _ IH]; simpl; lia. }
  simpl. apply elem_of_cons in Hx as [->|Hx]; [lia|]. specialize (IH Hx). lia.
Qed.

Lemma average_between (l : list Z) :
  l ≠ [] → Forall (fun x => 0 < x) l →
  0 < minimum l
  ∧ minimum l ≤ Z.quot (Zsum l) (Z.of_nat (length l)) ≤ maximum l
  ∧ maximum l ≤ Zsum l.
Proof.
  intros Hne Hpos.
  assert (Hn : 0 < Z.of_nat (length l)) by (destruct l; [done | simpl; lia]).
  pose proof (minimum_elem l Hne) as Hmin. pose proof (maximum_elem l Hne) as Hmax.
  assert (Hb : Forall (fun x => minimum l ≤ x ≤ maximum l) l).
  { apply Forall_forall. intros x Hx. split; [by apply minimum_le | by apply maximum_ge]. }
  apply Zsum_bounds in Hb.
  pose proof (Zsum_ge_elem l _ Hpos Hmax) as Hsum.
  rewrite Forall_forall in Hpos. pose proof (Hpos _ Hmin) as Hmin0.
  rewrite Z.quot_div_nonneg by nia. split_and!; [done | | | done].
  - apply Z.div_le_lower_bound; lia.
  - apply Z.div_le_upper_bound; lia.
Qed.

(** The display conversions keep the order. *)
Lemma Qc_div_le (a b c : Z) : 0 < c → a ≤ b → (Qc_of_Z a / Qc_of_Z c ≤ Qc_of_Z b / Qc_of_Z c)%Qc.
Proof.
  intros Hc Hab. unfold Qcdiv. apply Qcmult_le_compat_r.
  - by apply (proj1 (Z2Qc_inj_le a b)).
  - apply Qclt_le_weak, Qcinv_pos. rewrite <- Z2Qc_inj_0.
    by apply (proj1 (Z2Qc_inj_lt 0 c)).
Qed.

Lemma Qc_div_nonneg (a c : Z) : 0 < c → 0 ≤ a → (Qc_of_Z 0 ≤ Qc_of_Z a / Qc_of_Z c)%Qc.
Proof.
  intros Hc Ha. pose proof (Qc_div_le 0 a c Hc Ha) as H.
  by rewrite Z2Qc_inj_0 in *; unfold Qcdiv in H at 1; rewrite Qcmult_0_l in H.
Qed.

Lemma weiToGwei_nonneg (a : Z) : 0 ≤ a → number_le zero (weiToGwei a).
Proof. intros H. rewrite weiToGwei_exact. simpl. by apply Qc_div_nonneg. Qed.

Lemma weiToEth_nonneg (a : Z) : 0 ≤ a → number_le zero (weiToEth a).
Proof. intros H. rewrite weiToEth_exact. simpl. by apply Qc_div_nonneg. Qed.

Lemma weiToGwei_le (a b : Z) : a ≤ b → number_le (weiToGwei a) (weiToGwei b).
Proof. intros H. rewrite !weiToGwei_exact. simpl. by apply Qc_div_le. Qed.

Lemma weiToEth_le (a b : Z) : a ≤ b → number_le (weiToEth a) (weiToEth b).
Proof. intros H. rewrite !weiToEth_exact. simpl. by apply Qc_div_le. Qed.

Lemma number_le_zero_zero : number_le zero zero.
Proof. apply Qcle_refl. Qed.

(** X2: whenever statistics are returned, [0 <= min <= average <= max],
    and for the values [max <= total] as well: the truncated average never
    leaves the range of the amounts. *)
Theorem stats_ordered (transactions : list Transaction) :
  (∀ stats, computeAverageGasPrice transactions = Return stats →
     number_le zero (minGasPriceGwei stats)
     ∧ number_le (minGasPriceGwei stats) (averageGasPriceGwei stats)
     ∧ number_le (averageGasPriceGwei stats) (maxGasPriceGwei stats))
  ∧ (∀ stats, computeTransactionValueStats transactions = Return stats →
     number_le zero (minValueEth stats)
     ∧ number_le (minValueEth stats) (averageValueEth stats)
     ∧ number_le (averageValueEth stats) (maxValueEth stats)
     ∧ number_le (maxValueEth stats) (totalValueEth stats)).
Proof.
  split; intros stats.
  - rewrite computeAverageGasPrice_amounts.
    destruct (gasPricesWei transactions) as [amounts|e] eqn:Hamounts; [|done].
    rewrite bind_Return. intros [= <-].
    destruct amounts as [|first rest]; [by repeat split; apply number_le_zero_zero|].
    destruct (average_between (first :: rest)) as (Hmin & [Havg1 Havg2] & _);
      [done | by eapply gasPricesWei_positive|].
    cbn [minGasPriceGwei averageGasPriceGwei maxGasPriceGwei].
    split_and!; try by apply weiToGwei_le.
    apply weiToGwei_nonneg. lia.
  - rewrite computeTransactionValueStats_amounts. intros [= <-].
    pose proof (valuesWei_positive transactions) as Hpos.
    destruct (valuesWei transactions) as [|first rest];
      [by repeat split; apply number_le_zero_zero|].
    destruct (average_between (first :: rest)) as (Hmin & [Havg1 Havg2] & Hmax); [done..|].
    cbn [minValueEth averageValueEth maxValueEth totalValueEth].
    split_and!; try by apply weiToEth_le.
    apply weiToEth_nonneg. change (0 ≤ minimum (first :: rest)). lia.
Qed.

Lemma stats_ordered_witness :
  (∃ stats,
     computeAverageGasPrice [tx "0xa" "0xb" "0" "1"; tx "0xa" "0xb" "0" "4"] = Return stats
     ∧ number_le zero (minGasPriceGwei stats)
     ∧ number_le (minGasPriceGwei stats) (averageGasPriceGwei stats)
     ∧ number_le (averageGasPriceGwei stats) (maxGasPriceGwei stats))
  ∧ (∃ stats,
     computeTransactionValueStats [tx "0xa" "0xb" "1" "0"; tx "0xa" "0xb" "4" "0"] = Return stats
     ∧ number_le zero (minValueEth stats)
     ∧ number_le (minValueEth stats) (averageValueEth stats)
     ∧ number_le (averageValueEth stats) (maxValueEth stats)
     ∧ number_le (maxValueEth stats) (totalValueEth stats)).
Proof.
  split.
  - eexists. split; [reflexivity|].
    apply (proj1 (stats_ordered [tx "0xa" "0xb" "0" "1"; tx "0xa" "0xb" "0" "4"])).
    reflexivity.
  - eexists. split; [reflexivity|].
    apply (proj2 (stats_ordered [tx "0xa" "0xb" "1" "0"; tx "0xa" "0xb" "4" "0"])).
    reflexivity.
Defined.

Lemma minimum_perm (l1 l2 : list Z) : Permutation l1 l2 → minimum l1 = minimum l2.
Proof.
  intros Hperm. destruct l1 as [|x1 r1].
  { by apply Permutation_nil in Hperm as ->. }
  destruct l2 as [|x2 r2]; [by apply Permutation_sym, Permutation_nil in Hperm|].
  assert (H1 : minimum (x1 :: r1) ∈ x2 :: r2).
  { apply list_elem_of_In, (Permutation_in _ Hperm), list_elem_of_In. by apply minimum_elem. }
  assert (H2 : minimum (x2 :: r2) ∈ x1 :: r1).
  { apply list_elem_of_In, (Permutation_in _ (Permutation_sym Hperm)), list_elem_of_In.
    by apply minimum_elem. }
  apply minimum_le in H1, H2. lia.
Qed.

Lemma maximum_perm (l1 l2 : list Z) : Permutation l1 l2 → maximum l1 = maximum l2.
Proof.
  intros Hperm. destruct l1 as [|x1 r1].
  { by apply Permutation_nil in Hperm as ->. }
  destruct l2 as [|x2 r2]; [by apply Permutation_sym, Permutation_nil in Hperm|].
  assert (H1 : maximum (x1 :: r1) ∈ x2 :: r2).
  { apply list_elem_of_In, (Permutation_in _ Hperm), list_elem_of_In. by apply maximum_elem. }
  assert (H2 : maximum (x2 :: r2) ∈ x1 :: r1).
  { apply list_elem_of_In, (Permutation_in _ (Permutation_sym Hperm)), list_elem_of_In.
    by apply maximum_elem. }
  apply maximum_ge in H1, H2. lia.
Qed.

Lemma valuesWei_perm (l1 l2 : list Transaction) :
  Permutation l1 l2 → Permutation (valuesWei l1) (valuesWei l2).
Proof. intros Hperm. unfold valuesWei. by rewrite Hperm. Qed.

Lemma mapM_Completion_perm {A B} (f : A → Completion B) (l1 l2 : list A) (ys : list B) :
  Permutation l1 l2 → mapM f l1 = Return ys →
  ∃ ys', mapM f l2 = Return ys' ∧ Permutation ys ys'.
Proof.
  intros Hperm. revert ys. induction Hperm as [|x l1 l2 _ IH|x y l|l1 l2 l3 _ IH1 _ IH2];
    intros ys.
  - intros ?. by exists ys.
  - rewrite !mapM_Completion_cons. destruct (f x) as [b|e]; [|done]. rewrite !bind_Return.
    destruct (mapM f l1) as [k|e]; [|done]. rewrite bind_Return. intros [= <-].
    destruct (IH k eq_refl) as (k' & -> & Hk). exists (b :: k'). by split; [|constructor].
  - change (mapM f (y :: x :: l))
      with (f y ≫= λ b, (f x ≫= λ a, mapM f l ≫= λ k, mret (a :: k)) ≫= λ k', mret (b :: k')).
    change (mapM f (x :: y :: l))
      with (f x ≫= λ a, (f y ≫= λ b, mapM f l ≫= λ k, mret (b :: k)) ≫= λ k', mret (a :: k')).
    destruct (f x) as [a|e], (f y) as [b|e'], (mapM f l) as [k|e'']; try done.
    repeat (rewrite bind_Return; cbv beta). intros [= <-].
    exists (a :: b :: k). split; [done | apply perm_swap].
  - intros H1. destruct (IH1 ys H1) as (ys1 & H2 & Hp1).
    destruct (IH2 ys1 H2) as (ys2 & H3 & Hp2). exists ys2. split; [done | by etrans].
Qed.

Lemma gasPricesWei_perm (l1 l2 : list Transaction) (amounts : list Z) :
  Permutation l1 l2 → gasPricesWei l1 = Return amounts →
  ∃ amounts', gasPricesWei l2 = Return amounts' ∧ Permutation amounts amounts'.
Proof.
  intros Hperm. unfold gasPricesWei.
  destruct (mapM _ l1) as [prices|e] eqn:Hprices; [|done].
  rewrite bind_Return. intros [= <-].
  destruct (mapM_Completion_perm _ _ _ _ Hperm Hprices) as (prices' & -> & Hp).
  rewrite bind_Return. eexists. split; [done|]. by rewrite Hp.
Qed.

(** X3: the statistics do not depend on the order of the transactions:
    the value statistics of a permuted array are the same, and so are the
    gas price statistics whenever they are returned. *)
Theorem stats_permutation (transactions transactions' : list Transaction) :
  Permutation transactions transactions' →
  computeTransactionValueStats transactions' = computeTransactionValueStats transactions
  ∧ (∀ stats, computeAverageGasPrice transactions = Return stats →
              computeAverageGasPrice transactions' = Return stats).
Proof.
  intros Hperm. split.
  - rewrite !computeTransactionValueStats_amounts.
    pose proof (valuesWei_perm _ _ Hperm) as Hv. rewrite (Permutation_length Hperm).
    destruct (valuesWei transactions) as [|x r], (valuesWei transactions') as [|x' r'];
      [done| | |].
    + by apply Permutation_nil in Hv.
    + by apply Permutation_sym, Permutation_nil in Hv.
    + cbv zeta.
      by rewrite (Zsum_perm _ _ Hv), (minimum_perm _ _ Hv), (maximum_perm _ _ Hv),
        (Permutation_length Hv).
  - intros stats. rewrite !computeAverageGasPrice_amounts.
    destruct (gasPricesWei transactions) as [amounts|e] eqn:Ha; [|done].
    destruct (gasPricesWei_perm _ _ _ Hperm Ha) as (amounts' & -> & Hv).
    rewrite !bind_Return, (Permutation_length Hperm). intros [= <-].
    destruct amounts as [|x r], amounts' as [|x' r']; [done| | |].
    + by apply Permutation_nil in Hv.
    + by apply Permutation_sym, Permutation_nil in Hv.
    + cbv zeta.
      by rewrite (Zsum_perm _ _ Hv), (minimum_perm _ _ Hv), (maximum_perm _ _ Hv),
        (Permutation_length Hv).
Qed.

Lemma stats_permutation_witness :
  computeTransactionValueStats [tx "0xa" "0xb" "5" "7"; tx "0xa" "0xb" "1" "3"]
  = computeTransactionValueStats [tx "0xa" "0xb" "1" "3"; tx "0xa" "0xb" "5" "7"]
  ∧ computeAverageGasPrice [tx "0xa" "0xb" "5" "7"; tx "0xa" "0xb" "1" "3"]
    = Return (mkGasPriceStats (weiToGwei 5) (weiToGwei 3) (weiToGwei 7) 2).
Proof.
  destruct (stats_permutation [tx "0xa" "0xb" "1" "3"; tx "0xa" "0xb" "5" "7"]
              [tx "0xa" "0xb" "5" "7"; tx "0xa" "0xb" "1" "3"] (perm_swap _ _ _))
    as [Hvalue Hgas].
  split; [exact Hvalue|]. apply Hgas. reflexivity.
Defined.

(** ** Active addresses and contract deployments: bounds *)

Lemma computeActiveAddresses_sets (transactions : list Transaction) :
  computeActiveAddresses transactions
  = mkActiveAddressesStats
      (size (senders_of transactions ∪ receivers_of transactions))
      (size (senders_of transactions))
      (size (receivers_of transactions)).
Proof.
  unfold computeActiveAddresses. rewrite activeAddresses_fold.
  f_equal; f_equal; set_solver.
Qed.

Lemma size_list_to_set_le (l : list string) : (size (list_to_set l : gset string) ≤ length l)%nat.
Proof.
  induction l as [|x l IH]; [by rewrite list_to_set_nil, size_empty|].
  rewrite list_to_set_cons, size_union_alt, size_singleton. simpl.
  assert (size (list_to_set l ∖ {[x]} : gset string) ≤ size (list_to_set l : gset string))%nat
    by (apply subseteq_size; set_solver).
  lia.
Qed.

Lemma length_omap_le {A B} (f : A → option B) (l : list A) : (length (omap f l) ≤ length l)%nat.
Proof. induction l as [|x l IH]; csimpl; [done|]. destruct (f x); csimpl; lia. Qed.

(** X4: no more senders or receivers than addresses, no more addresses
    than senders and receivers together, and no more senders or receivers
    than transactions. *)
Theorem computeActiveAddresses_bounds (transactions : list Transaction) :
  let stats := computeActiveAddresses transactions in
  (uniqueSenders stats ≤ uniqueAddresses stats)%nat
  ∧ (uniqueReceivers stats ≤ uniqueAddresses stats)%nat
  ∧ (uniqueAddresses stats ≤ uniqueSenders stats + uniqueReceivers stats)%nat
  ∧ (uniqueSenders stats ≤ length transactions)%nat
  ∧ (uniqueReceivers stats ≤ length transactions)%nat.
Proof.
  cbv zeta. rewrite computeActiveAddresses_sets. simpl. split_and!.
  - apply subseteq_size. set_solver.
  - apply subseteq_size. set_solver.
  - rewrite size_union_alt.
    assert (size (receivers_of transactions ∖ senders_of transactions)
            ≤ size (receivers_of transactions))%nat by (apply subseteq_size; set_solver).
    lia.
  - unfold senders_of. etrans; [apply size_list_to_set_le|].
    rewrite length_fmap. etrans; [apply length_filter|]. by rewrite length_fmap.
  - unfold receivers_of. etrans; [apply size_list_to_set_le|].
    rewrite length_fmap. etrans; [apply length_filter|]. apply length_omap_le.
Qed.

Lemma Qc_of_nat_div_le_1 (d n : nat) :
  n ≠ 0%nat → (d ≤ n)%nat → (Qc_of_Z (Z.of_nat d) / Qc_of_Z (Z.of_nat n) ≤ 1)%Qc.
Proof.
  intros Hn Hd.
  replace 1%Qc with (Qc_of_Z (Z.of_nat n) / Qc_of_Z (Z.of_nat n))%Qc.
  - apply Qc_div_le; lia.
  - unfold Qcdiv. apply Qcmult_inv_r. rewrite <- Z2Qc_inj_0. by apply Qc_of_nat_nonzero.
Qed.

(** X5: there are no more deployments than transactions, and the
    percentage lies between 0 and 100. *)
Theorem computeContractDeployments_bounds (transactions : list Transaction) :
  let stats := computeContractDeployments transactions in
  (totalDeployments stats ≤ length transactions)%nat
  ∧ number_le zero (deploymentPercentage stats)
  ∧ number_le (deploymentPercentage stats) (Js.of_Z 100).
Proof.
  cbv zeta. unfold computeContractDeployments.
  cbn [totalDeployments deploymentPercentage].
  set (d := length (filter _ transactions)).
  assert (Hd : (d ≤ length transactions)%nat) by apply length_filter.
  split; [done|]. case_decide as Hlen.
  - assert (Hn : length transactions ≠ 0%nat) by lia.
    change (Js.of_nat d) with (Fin (Qc_of_Z (Z.of_nat d))). rewrite div_of_nat by done.
    change (Js.mul (Fin ?a) (Js.of_Z 100)) with (Fin (a * Qc_of_Z 100)).
    change (number_le zero (Fin ?a)) with (Qc_of_Z 0 ≤ a)%Qc.
    change (number_le (Fin ?a) (Js.of_Z 100)) with (a ≤ Qc_of_Z 100)%Qc.
    assert (H100 : (0 ≤ Qc_of_Z 100)%Qc).
    { rewrite <- Z2Qc_inj_0. by apply (proj1 (Z2Qc_inj_le 0 100)). }
    split.
    + rewrite Z2Qc_inj_0.
      rewrite <- (Qcmult_0_l (Qc_of_Z 100)). apply Qcmult_le_compat_r; [|done].
      pose proof (Qc_div_nonneg (Z.of_nat d) (Z.of_nat (length transactions))
                    ltac:(lia) ltac:(lia)) as H.
      by rewrite Z2Qc_inj_0 in H.
    + rewrite <- (Qcmult_1_l (Qc_of_Z 100)) at 2. apply Qcmult_le_compat_r; [|done].
      by apply Qc_of_nat_div_le_1.
  - split; [apply number_le_zero_zero|]. simpl.
    by apply (proj1 (Z2Qc_inj_le 0 100)).
Qed.

(** ** Top addresses: what every result satisfies *)

Lemma toLowerCaseChar_idemp (c : ascii) : toLowerCaseChar (toLowerCaseChar c) = toLowerCaseChar c.
Proof. destruct c as [[] [] [] [] [] [] [] []]; reflexivity. Qed.

Lemma toLowerCase_idemp (s : string) : toLowerCase (toLowerCase s) = toLowerCase s.
Proof. induction s as [|c s IH]; simpl; [done|]. by rewrite toLowerCaseChar_idemp, IH. Qed.

(** The result is a prefix of the sorted entries, whatever the limit. *)
Lemma slice0_is_take {A} (l : list A) (end_ : Z) : ∃ n, slice0 l end_ = take n l.
Proof. unfold slice0. eauto. Qed.

Lemma computeTopAddresses_prefix (transactions : list Transaction) (limit : option Z) :
  ∃ n, computeTopAddresses transactions limit
       = entry <$> take n (Array_sort by_count_desc (tally (occurrences transactions))).
Proof.
  unfold computeTopAddresses. cbv zeta. rewrite topAddresses_fold, fold_bump_tally.
  destruct (slice0_is_take (Array_sort by_count_desc (tally (occurrences transactions)))
              (default 5 limit)) as [n ->].
  exists n. apply map_ext. by intros [a c].
Qed.

Lemma occurrences_of_lower (t : Transaction) :
  Forall (fun a => toLowerCase a = a) (occurrences_of t).
Proof.
  unfold occurrences_of. apply Forall_app. split.
  - case_decide; repeat constructor. apply toLowerCase_idemp.
  - destruct (to t) as [r|]; [|constructor].
    case_decide; repeat constructor. apply toLowerCase_idemp.
Qed.

Lemma occurrences_lower (transactions : list Transaction) :
  Forall (fun a => toLowerCase a = a) (occurrences transactions).
Proof.
  unfold occurrences. induction transactions as [|t l IH]; simpl; [constructor|].
  apply Forall_app. split; [apply occurrences_of_lower | exact IH].
Qed.

Lemma occurrences_length (transactions : list Transaction) :
  (length (occurrences transactions) ≤ 2 * length transactions)%nat.
Proof.
  unfold occurrences. induction transactions as [|t l IH]; simpl; [lia|].
  rewrite length_app.
  assert (length (occurrences_of t) ≤ 2)%nat; [|lia].
  unfold occurrences_of. rewrite length_app.
  destruct (decide (from t = "")), (to t) as [r|]; try destruct (decide (r = "")); simpl; lia.
Qed.

Lemma count_le_length (a : string) (l : list string) : count a l ≤ Z.of_nat (length l).
Proof. unfold count. pose proof (length_filter (fun b => b = a) l). lia. Qed.

Lemma StronglySorted_take {A} (R : A → A → Prop) (l : list A) (n : nat) :
  StronglySorted R l → StronglySorted R (take n l).
Proof.
  intros Hs. revert n. induction Hs as [|x l Hs IH Hx]; intros [|n]; simpl; try constructor.
  - apply IH.
  - eapply Forall_forall. intros y Hy. rewrite Forall_forall in Hx. apply Hx.
    eapply elem_of_sublist; [exact Hy | apply sublist_take].
Qed.

Lemma StronglySorted_fmap {A B} (f : A → B) (R : B → B → Prop) (l : list A) :
  StronglySorted (fun a b => R (f a) (f b)) l → StronglySorted R (f <$> l).
Proof.
  induction 1 as [|x l Hs IH Hx]; csimpl; constructor; [done|].
  apply Forall_fmap. exact Hx.
Qed.

(** X6: whatever the limit, the result names no address twice, every
    address in it is in lower case, every count is at least 1 and at most
    twice the number of transactions, and the counts never increase along
    the result. *)
Theorem computeTopAddresses_invariants (transactions : list Transaction) (limit : option Z) :
  let result := computeTopAddresses transactions limit in
  NoDup (address <$> result)
  ∧ Forall (fun e => toLowerCase (address e) = address e
                     ∧ 1 ≤ transactionCount e ≤ 2 * Z.of_nat (length transactions)) result
  ∧ StronglySorted (fun a b => transactionCount b ≤ transactionCount a) result
  ∧ (length result ≤ 2 * length transactions)%nat.
Proof.
  cbv zeta. destruct (computeTopAddresses_prefix transactions limit) as [n ->].
  set (occs := occurrences transactions).
  set (sorted := Array_sort by_count_desc (tally occs)).
  assert (Hperm : Permutation sorted (tally occs)) by apply Array_sort_perm.
  assert (Hkeys : fst <$> tally occs = first_seen occs).
  { unfold tally. change (map ?f ?l) with (f <$> l). rewrite <- list_fmap_compose.
    etrans; [by apply list_fmap_ext | apply list_fmap_id]. }
  assert (Hlen : (length (first_seen occs) ≤ 2 * length transactions)%nat).
  { etrans; [|apply occurrences_length].
    apply sublist_length. clear. induction (occurrences transactions) as [|x l IH]; simpl;
      [constructor|].
    apply sublist_skip. etrans; [apply sublist_filter | exact IH]. }
  split_and!.
  - assert (address <$> (entry <$> take n sorted) = fst <$> take n sorted) as ->.
    { rewrite <- list_fmap_compose. by apply list_fmap_ext. }
    apply (sublist_NoDup _ (fst <$> sorted)).
    + rewrite Hperm, Hkeys. apply NoDup_first_seen.
    + apply fmap_sublist, sublist_take.
  - apply Forall_fmap, Forall_forall. intros [a c] Hin. simpl.
    assert (Hin' : (a, c) ∈ tally occs).
    { rewrite <- Hperm. eapply elem_of_sublist; [exact Hin | apply sublist_take]. }
    unfold tally in Hin'. apply list_elem_of_fmap in Hin' as (b & [= -> ->] & Hb).
    rewrite elem_of_first_seen in Hb. split_and!.
    + pose proof (occurrences_lower transactions) as Hlow.
      rewrite Forall_forall in Hlow. by apply Hlow.
    + pose proof (count_pos b occs Hb). lia.
    + pose proof (count_le_length b occs). pose proof (occurrences_length transactions).
      fold occs in H0. lia.
  - apply StronglySorted_fmap, StronglySorted_take. simpl.
    eapply StronglySorted_weaken; [|apply Array_sort_sorted; intros; lia].
    intros a b. simpl. lia.
  - rewrite length_fmap. etrans; [apply sublist_length, sublist_take|].
    unfold sorted. rewrite Array_sort_length. unfold tally. by rewrite length_map.
Qed.

(** ** Top addresses and active addresses together *)

Lemma list_to_set_occurrences (transactions : list Transaction) :
  (list_to_set (occurrences transactions) : gset string)
  = senders_of transactions ∪ receivers_of transactions.
Proof.
  unfold occurrences. induction transactions as [|t l IH]; simpl.
  { unfold senders_of, receivers_of. simpl. set_solver. }
  rewrite list_to_set_app_L, IH, senders_of_cons, receivers_of_cons.
  unfold occurrences_of. rewrite list_to_set_app_L.
  destruct (from t) as [|c s], (to t) as [[|c' s']|]; simpl; set_solver.
Qed.

Lemma length_first_seen (l : list string) :
  length (first_seen l) = size (list_to_set l : gset string).
Proof.
  rewrite <- (size_list_to_set (C := gset string) (first_seen l)) by apply NoDup_first_seen.
  f_equal. apply set_eq. intros a. by rewrite !elem_of_list_to_set, elem_of_first_seen.
Qed.

Lemma distinct_addresses (transactions : list Transaction) :
  length (first_seen (occurrences transactions))
  = uniqueAddresses (computeActiveAddresses transactions).
Proof.
  by rewrite length_first_seen, list_to_set_occurrences, computeActiveAddresses_sets.
Qed.

Lemma computeTopAddresses_take (transactions : list Transaction) (limit : Z) :
  0 ≤ limit →
  computeTopAddresses transactions (Some limit)
  = entry <$> take (Z.to_nat limit)
                   (Array_sort by_count_desc (tally (occurrences transactions))).
Proof.
  intros Hlimit. unfold computeTopAddresses. cbv zeta.
  rewrite topAddresses_fold, fold_bump_tally. simpl default.
  rewrite slice0_take by done. apply map_ext. by intros [a c].
Qed.

(** X7: for a limit that is not negative the result has as many entries
    as the limit allows and [computeActiveAddresses] counts unique
    addresses: [min limit uniqueAddresses]. *)
Theorem computeTopAddresses_length (transactions : list Transaction) (limit : Z) :
  0 ≤ limit →
  length (computeTopAddresses transactions (Some limit))
  = Nat.min (Z.to_nat limit) (uniqueAddresses (computeActiveAddresses transactions)).
Proof.
  intros Hlimit. rewrite computeTopAddresses_take by done.
  rewrite length_fmap, length_take, Array_sort_length. unfold tally.
  by rewrite length_map, distinct_addresses.
Qed.

Lemma computeTopAddresses_length_witness :
  length (computeTopAddresses
            [tx "0xA" "0xB" "0" "1"; tx "0xa" "0xC" "0" "1"; tx "0xB" "0xC" "0" "1"] (Some 2))
  = Nat.min 2 (uniqueAddresses
                 (computeActiveAddresses
                    [tx "0xA" "0xB" "0" "1"; tx "0xa" "0xC" "0" "1"; tx "0xB" "0xC" "0" "1"])).
Proof.
  apply (computeTopAddresses_length
           [tx "0xA" "0xB" "0" "1"; tx "0xa" "0xC" "0" "1"; tx "0xB" "0xC" "0" "1"] 2).
  lia.
Defined.

(** One [bump] adds one to the sum of the counts. *)
Lemma Zsum_bump (addr : string) (m : JsMap) :
  Zsum (snd <$> bump addr m) = Zsum (snd <$> m) + 1.
Proof.
  unfold bump, Zsum. induction m as [|[k v] m IH]; simpl; [done|].
  destruct (decide (k = addr)) as [->|Hne]; csimpl.
  - unfold or_zero. case_decide; lia.
  - rewrite IH. lia.
Qed.

Lemma Zsum_tally (l : list string) : Zsum (snd <$> tally l) = Z.of_nat (length l).
Proof.
  induction l as [|a l IH] using rev_ind; [done|].
  rewrite tally_snoc, Zsum_bump, IH, length_app. simpl. lia.
Qed.

Lemma occurrences_count (transactions : list Transaction) :
  length (occurrences transactions)
  = (length (filter (fun t => truthy (from t) = true) transactions)
     + length (filter (fun t => truthy_opt (to t) = true) transactions))%nat.
Proof.
  unfold occurrences. induction transactions as [|t l IH]; simpl; [done|].
  rewrite length_app, IH, !filter_cons. unfold occurrences_of. rewrite length_app.
  destruct (from t) as [|c s], (to t) as [[|c' s']|]; simpl; lia.
Qed.

(** X8: when the limit is no smaller than the number of unique addresses,
    the counts of the result add up to the number of non-empty [from]
    fields plus the number of non-empty [to] fields: every endpoint of
    every transaction is counted once. *)
Theorem computeTopAddresses_total (transactions : list Transaction) (limit : Z) :
  (uniqueAddresses (computeActiveAddresses transactions) ≤ Z.to_nat limit)%nat →
  Zsum (transactionCount <$> computeTopAddresses transactions (Some limit))
  = Z.of_nat (length (filter (fun t => truthy (from t) = true) transactions)
              + length (filter (fun t => truthy_opt (to t) = true) transactions)).
Proof.
  intros Hall.
  destruct (decide (0 ≤ limit)) as [Hlimit|Hneg].
  - rewrite computeTopAddresses_take by done. rewrite take_ge.
    + rewrite <- list_fmap_compose.
      rewrite (Zsum_perm _ (snd <$> tally (occurrences transactions))).
      * by rewrite Zsum_tally, occurrences_count.
      * etrans; [|apply fmap_Permutation, Array_sort_perm]. by rewrite (list_fmap_ext _ snd).
    + rewrite Array_sort_length. unfold tally. by rewrite length_map, distinct_addresses.
  - assert (Hzero : uniqueAddresses (computeActiveAddresses transactions) = 0%nat) by lia.
    rewrite <- distinct_addresses in Hzero.
    destruct (computeTopAddresses_prefix transactions (Some limit)) as [n ->].
    unfold tally.
    destruct (first_seen (occurrences transactions)) as [|a fs] eqn:Hfs; [|done].
    destruct (occurrences transactions) as [|b occs] eqn:Hoccs; [|done].
    simpl. rewrite take_nil. csimpl.
    pose proof (occurrences_count transactions) as Hc. rewrite Hoccs in Hc. simpl in Hc.
    unfold Zsum. simpl. lia.
Qed.

Lemma computeTopAddresses_total_witness :
  Zsum (transactionCount
          <$> computeTopAddresses
                [tx "0xA" "0xB" "0" "1"; tx "0xa" "" "0" "1"; tx "0xB" "0xb" "0" "1"] (Some 2))
  = Z.of_nat
      (length (filter (fun t => truthy (from t) = true)
                 [tx "0xA" "0xB" "0" "1"; tx "0xa" "" "0" "1"; tx "0xB" "0xb" "0" "1"])
       + length (filter (fun t => truthy_opt (to t) = true)
                   [tx "0xA" "0xB" "0" "1"; tx "0xa" "" "0" "1"; tx "0xB" "0xb" "0" "1"])).
Proof.
  apply (computeTopAddresses_total
           [tx "0xA" "0xB" "0" "1"; tx "0xa" "" "0" "1"; tx "0xB" "0xb" "0" "1"] 2).
  vm_compute. lia.
Defined.

(** ** Block time statistics: the average telescopes, NaN spreads *)

Lemma computeBlockTimeStats_deltas (blocks : list Block) :
  (2 ≤ length blocks)%nat →
  ∃ d ds,
    deltas (timestamps (Array_sort by_number blocks)) = d :: ds
    ∧ length (d :: ds) = (length blocks - 1)%nat
    ∧ computeBlockTimeStats blocks
      = mkBlockTimeStats (mean (d :: ds)) (Math_min d ds) (Math_max d ds) (length blocks).
Proof.
  intros Hlen. unfold computeBlockTimeStats. case_decide; [lia|].
  pose proof (blockTimes_length (Array_sort by_number blocks)) as Hbt.
  rewrite Array_sort_length in Hbt. rewrite blockTimes_deltas in *.
  destruct (deltas (timestamps (Array_sort by_number blocks))) as [|d ds];
    [simpl in Hbt; lia|].
  exists d, ds. split_and!; [done..|]. by rewrite reduce_add_sum.
Qed.

Lemma last_cons_default {A} (y : A) (xs : list A) (d : A) :
  List.last (y :: xs) d = List.last xs y.
Proof.
  revert y d. induction xs as [|z xs IH]; intros y d; [done|].
  change (List.last (y :: z :: xs) d) with (List.last (z :: xs) d).
  by rewrite !IH.
Qed.

Lemma last_elem {A} (xs : list A) (x : A) : List.last xs x ∈ x :: xs.
Proof.
  revert x. induction xs as [|y xs IH]; intros x; [left|].
  rewrite last_cons_default. right. apply IH.
Qed.

Lemma last_map {A B} (f : A → B) (xs : list A) (x : A) :
  List.last (map f xs) (f x) = f (List.last xs x).
Proof.
  revert x. induction xs as [|y xs IH]; intros x; [done|].
  change (map f (y :: xs)) with (f y :: map f xs). by rewrite !last_cons_default, IH.
Qed.

(** The differences add up to the last minus the first. *)
Lemma number_sum_deltas (x : Js.number) (xs : list Js.number) :
  Forall is_finite (x :: xs) →
  number_sum (deltas (x :: xs)) = Js.sub (List.last xs x) x.
Proof.
  revert x. induction xs as [|y xs IH]; intros x Hfin.
  - apply Forall_cons in Hfin as [Hx _]. destruct x as [|a]; [done|].
    simpl. unfold number_sum, zero, Js.of_Z, Js.sub. simpl. f_equal.
    rewrite Z2Qc_inj_0. ring.
  - apply Forall_cons in Hfin as [Hx Hfin]. pose proof Hfin as Hfin'.
    apply Forall_cons in Hfin' as [Hy _].
    rewrite deltas_cons2, last_cons_default. unfold number_sum in *. cbn [foldr].
    rewrite (IH y Hfin).
    destruct x as [|a]; [done|]. destruct y as [|b]; [done|].
    destruct (List.last xs (Fin b)) as [|l]; [done|].
    unfold Js.add, Js.sub. simpl. f_equal. ring.
Qed.

Lemma sorted_last_greatest (key : Block → Z) (x : Block) (xs : list Block) :
  StronglySorted (fun a b => key a ≤ key b) (x :: xs) →
  ∀ b, b ∈ x :: xs → key b ≤ key (List.last xs x).
Proof.
  revert x. induction xs as [|y xs IH]; intros x Hs b Hb.
  - apply list_elem_of_singleton in Hb as ->. simpl. lia.
  - apply StronglySorted_inv in Hs as [Hs Hx]. rewrite last_cons_default.
    apply elem_of_cons in Hb as [->|Hb]; [|by apply IH].
    rewrite Forall_forall in Hx. etrans; [apply (Hx y); left|]. apply IH; [done|left].
Qed.

(** The differences of the sorted timestamps add up to the timestamp of a
    block of greatest number minus that of a block of least number. *)
Lemma timestamps_sum_extremes (blocks : list Block) :
  (2 ≤ length blocks)%nat →
  Forall (fun b => is_finite (parseInt (block_timestamp b) 0)) blocks →
  ∃ lo hi,
    lo ∈ blocks ∧ hi ∈ blocks
    ∧ (∀ b, b ∈ blocks → number lo ≤ number b ≤ number hi)
    ∧ number_sum (deltas (timestamps (Array_sort by_number blocks)))
      = Js.sub (parseInt (block_timestamp hi) 0) (parseInt (block_timestamp lo) 0).
Proof.
  intros Hlen Hfin.
  pose proof (Array_sort_perm by_number blocks) as Hperm.
  assert (Hsorted : StronglySorted (fun a b => number a ≤ number b)
                      (Array_sort by_number blocks)).
  { eapply StronglySorted_weaken; [|apply Array_sort_sorted; intros; lia].
    intros a b. simpl. lia. }
  destruct (Array_sort by_number blocks) as [|lo rest] eqn:Hsort.
  { apply Permutation_length in Hperm. simpl in Hperm. lia. }
  exists lo, (List.last rest lo). split_and!.
  - rewrite <- Hperm. left.
  - rewrite <- Hperm. apply last_elem.
  - intros b Hb. rewrite <- Hperm in Hb. split.
    + apply StronglySorted_inv in Hsorted as [_ Hlo]. rewrite Forall_forall in Hlo.
      apply elem_of_cons in Hb as [->|Hb]; [lia | by apply Hlo].
    + by apply (sorted_last_greatest number).
  - unfold timestamps. change (map ?g (lo :: rest)) with (g lo :: map g rest).
    rewrite number_sum_deltas.
    + by rewrite (last_map (fun b => parseInt (block_timestamp b) 0)).
    + change (Forall is_finite (map (fun b => parseInt (block_timestamp b) 0) (lo :: rest))).
      apply Forall_fmap. rewrite Hperm. exact Hfin.
Qed.



(** NaN spreads through the differences, the sum and the extremes. *)
Lemma NaN_in_deltas (xs : list Js.number) :
  (2 ≤ length xs)%nat → NaN ∈ xs → NaN ∈ deltas xs.
Proof.
  induction xs as [|x xs IH]; intros Hlen Hin; [simpl in Hlen; lia|].
  destruct xs as [|y xs]; [simpl in Hlen; lia|]. rewrite deltas_cons2.
  destruct x as [|a]; [destruct y; left|]. destruct y as [|b]; [left|].
  right. apply IH.
  - apply elem_of_cons in Hin as [?|Hin]; [done|].
    apply elem_of_cons in Hin as [?|Hin]; [done|].
    destruct xs; [by apply elem_of_nil in Hin | simpl; lia].
  - by apply elem_of_cons in Hin as [?|Hin].
Qed.

Lemma number_sum_NaN (xs : list Js.number) : NaN ∈ xs → number_sum xs = NaN.
Proof.
  unfold number_sum. induction xs as [|x xs IH]; intros Hin; [by apply elem_of_nil in Hin|].
  simpl. apply elem_of_cons in Hin as [<-|Hin]; [done|].
  rewrite IH by done. by destruct x.
Qed.

(** One NaN among the timestamps is a NaN among the differences. *)
Lemma timestamps_NaN_delta (blocks : list Block) (b : Block) :
  (2 ≤ length blocks)%nat → b ∈ blocks → parseInt (block_timestamp b) 0 = NaN →
  NaN ∈ deltas (timestamps (Array_sort by_number blocks)).
Proof.
  intros Hlen Hb Hnan. apply NaN_in_deltas.
  - unfold timestamps. by rewrite length_map, Array_sort_length.
  - rewrite <- Hnan. apply list_elem_of_In.
    apply (in_map (fun b => parseInt (block_timestamp b) 0)).
    apply list_elem_of_In. by rewrite Array_sort_perm.
Qed.

(** X10: with two or more blocks, one timestamp that does not parse makes
    the average, the minimum and the maximum NaN. *)
Theorem computeBlockTimeStats_NaN (blocks : list Block) (b : Block) :
  (2 ≤ length blocks)%nat → b ∈ blocks → parseInt (block_timestamp b) 0 = NaN →
  computeBlockTimeStats blocks = mkBlockTimeStats NaN NaN NaN (length blocks).
Proof.
  intros Hlen Hb Hnan.
  destruct (computeBlockTimeStats_deltas blocks Hlen) as (d & ds & Hds & Hn & ->).
  pose proof (timestamps_NaN_delta blocks b Hlen Hb Hnan) as Hin. rewrite Hds in Hin.
  unfold mean. by rewrite number_sum_NaN, Math_min_NaN, Math_max_NaN.
Qed.

Lemma computeBlockTimeStats_NaN_witness :
  computeBlockTimeStats [blk 100 "1000"; blk 101 "NaN"; blk 102 "1025"]
  = mkBlockTimeStats NaN NaN NaN 3.
Proof.
  apply (computeBlockTimeStats_NaN [blk 100 "1000"; blk 101 "NaN"; blk 102 "1025"]
           (blk 101 "NaN")).
  - simpl. lia.
  - right; left.
  - reflexivity.
Defined.

(** ** [retryWithBackoff]: every run, its waits, larger budgets *)

Section retry_runs.

Context {W T : Type}.
Variable sleep : Z → W → W.
Variable fn : Async W T.
Variables maxRetries initialDelay : Z.

Local Abbreviation loop := (retry_loop sleep fn maxRetries initialDelay).
Local Abbreviation nth_attempt := (attempt_from sleep fn initialDelay).

(** With attempts left, the loop is some number of failed attempts, each
    followed by its wait, and one last attempt, which fails only when it
    is the last of the budget. *)
Lemma retry_loop_cases (n : nat) (attempt : Z) (lastError : option Error) (w : W) :
  Z.to_nat (maxRetries - attempt) = S n →
  ∃ k : nat,
    (k ≤ n)%nat
    ∧ (∀ j, (j < k)%nat → rejects (nth_attempt attempt j w))
    ∧ (rejects (nth_attempt attempt k w) → k = n)
    ∧ loop attempt lastError w
      = (surfaced (nth_attempt attempt k w).1, (nth_attempt attempt k w).2,
         backoff_trace initialDelay attempt k).
Proof.
  revert attempt lastError w. induction n as [|n IH]; intros attempt lastError w Hn.
  - exists 0%nat. split_and!; [lia | intros; lia | done |].
    rewrite retry_loop_body, decide_True by lia. cbn [attempt_from].
    destruct (fn w) as [[v|error] w1]; [done|].
    rewrite decide_False by lia. by rewrite retry_loop_done by lia.
  - rewrite retry_loop_body, decide_True by lia.
    destruct (fn w) as [[v|error] w1] eqn:Hfn.
    + exists 0%nat. cbn [attempt_from]. rewrite Hfn.
      split_and!; [lia | intros; lia | by intros [] | done].
    + rewrite decide_True by lia. cbv zeta.
      destruct (IH (attempt + 1) (Some (toError error))
                   (sleep (initialDelay * 2 ^ attempt) w1)) as (k & Hk & Hrej & Hlast & ->);
        [lia|].
      exists (S k). cbn [attempt_from]. rewrite Hfn. cbn [snd].
      split_and!; [lia | | by intros ?; f_equal; auto | by rewrite backoff_trace_S].
      intros [|j] Hj; cbn [attempt_from]; rewrite Hfn; [done|]. apply Hrej. lia.
Qed.

Lemma waited_Invoke (trace : list Event) : waited (Invoke :: trace) = waited trace.
Proof. reflexivity. Qed.

Lemma waited_Wait (delay : Z) (trace : list Event) :
  waited (Wait delay :: trace) = delay + waited trace.
Proof. reflexivity. Qed.

(** The waits of a trace double: together they are a geometric sum. *)
Lemma waited_backoff_trace (attempt : Z) (k : nat) :
  0 ≤ attempt →
  waited (backoff_trace initialDelay attempt k)
  = initialDelay * (2 ^ (attempt + Z.of_nat k) - 2 ^ attempt).
Proof.
  revert attempt. induction k as [|k IH]; intros attempt Ha.
  - rewrite Z.add_0_r. unfold backoff_trace. simpl. unfold waited. simpl. lia.
  - rewrite backoff_trace_S, waited_Invoke, waited_Wait, IH by lia.
    replace (attempt + Z.of_nat (S k)) with (attempt + 1 + Z.of_nat k) by lia.
    rewrite (Z.pow_add_r 2 attempt 1) by lia. lia.
Qed.

End retry_runs.



(** X12: whatever the operation does and whatever the budget, the time
    the helper waits is [initialDelay * (2 ^ (n - 1) - 1)] for [n]
    invocations (none for [n = 0]); with a budget of at least one and a
    delay that is not negative this is at most
    [initialDelay * (2 ^ (maxRetries - 1) - 1)]. *)
Theorem retryWithBackoff_waited {W T : Type} (sleep : Z → W → W) (fn : Async W T)
    (maxRetries initialDelay : Z) (w : W) :
  let trace := (retryWithBackoff sleep fn maxRetries initialDelay w).2 in
  waited trace = initialDelay * (2 ^ Z.of_nat (invocations trace - 1) - 1)
  ∧ (1 ≤ maxRetries → 0 ≤ initialDelay →
     0 ≤ waited trace ≤ initialDelay * (2 ^ (maxRetries - 1) - 1)).
Proof.
  cbv zeta. unfold retryWithBackoff.
  destruct (decide (maxRetries ≤ 0)) as [Hm|Hm].
  - rewrite retry_loop_done by lia. cbn [snd]. split; [|lia].
    unfold waited, invocations. simpl. lia.
  - destruct (retry_loop_cases sleep fn maxRetries initialDelay (Z.to_nat maxRetries - 1) 0 None w)
      as (k & Hk & _ & _ & ->); [lia|].
    cbn [snd]. rewrite invocations_backoff_trace, waited_backoff_trace by lia.
    replace (S k - 1)%nat with k by lia. rewrite Z.add_0_l, Z.pow_0_r.
    split; [done|]. intros _ Hd.
    assert (0 < 2 ^ Z.of_nat k) by (apply Z.pow_pos_nonneg; lia).
    assert (2 ^ Z.of_nat k ≤ 2 ^ (maxRetries - 1)) by (apply Z.pow_le_mono_r; lia).
    nia.
Qed.

Lemma retryWithBackoff_waited_witness :
  waited (retryWithBackoff (fun _ w => w) always_fails 3 1000 0%nat).2
  = 1000 * (2 ^ Z.of_nat (invocations (retryWithBackoff (fun _ w => w) always_fails 3 1000 0%nat).2 - 1) - 1)
  ∧ 0 ≤ waited (retryWithBackoff (fun _ w => w) always_fails 3 1000 0%nat).2
      ≤ 1000 * (2 ^ (3 - 1) - 1).
Proof.
  split.
  - apply (proj1 (retryWithBackoff_waited (fun _ w => w) always_fails 3 1000 0%nat)).
  - apply (proj2 (retryWithBackoff_waited (fun _ w => w) always_fails 3 1000 0%nat)); lia.
Defined.

(** X13: a larger budget changes nothing for a run that succeeds: when
    the helper resolves with budget [maxRetries], it resolves to the same
    value, in the same world and with the same trace, with any budget
    [maxRetries' >= maxRetries]. *)
Theorem retryWithBackoff_budget_monotone {W T : Type} (sleep : Z → W → W) (fn : Async W T)
    (maxRetries maxRetries' initialDelay : Z) (w w' : W) (v : T) (trace : list Event) :
  retryWithBackoff sleep fn maxRetries initialDelay w = (Resolved v, w', trace) →
  maxRetries ≤ maxRetries' →
  retryWithBackoff sleep fn maxRetries' initialDelay w = (Resolved v, w', trace).
Proof.
  unfold retryWithBackoff. intros Hrun Hle.
  destruct (decide (maxRetries ≤ 0)) as [Hm|Hm].
  { by rewrite retry_loop_done in Hrun by lia. }
  destruct (retry_loop_cases sleep fn maxRetries initialDelay (Z.to_nat maxRetries - 1) 0 None w)
    as (k & Hk & Hrej & _ & Heq); [lia|].
  rewrite Heq in Hrun.
  destruct (attempt_from sleep fn initialDelay 0 k w) as [[v0|error] w0] eqn:Hlast;
    [|discriminate Hrun].
  cbn in Hrun. injection Hrun as -> -> <-.
  apply retry_loop_success; [lia | done | done].
Qed.

Lemma retryWithBackoff_budget_monotone_witness :
  retryWithBackoff (fun _ w => w) (succeeds_at 2) 5 1000 0%nat
  = (Resolved "success", 2%nat, [Invoke; Wait 1000; Invoke]).
Proof.
  apply (retryWithBackoff_budget_monotone (fun _ w => w) (succeeds_at 2) 2 5 1000 0%nat).
  - reflexivity.
  - lia.
Defined.



(** ** [main]: what can stop a run, and what a run costs *)

Lemma invocations_app (t1 t2 : list Event) :
  invocations (t1 ++ t2) = (invocations t1 + invocations t2)%nat.
Proof. unfold invocations. by rewrite filter_app, length_app. Qed.

Lemma waited_app (t1 t2 : list Event) : waited (t1 ++ t2) = waited t1 + waited t2.
Proof. unfold waited. by rewrite omap_app, Zsum_app. Qed.

Lemma run_trace_app (log1 log2 : list MainEvent) :
  run_trace (log1 ++ log2) = run_trace log1 ++ run_trace log2.
Proof. apply flat_map_app. Qed.

(** With the defaults of [main], three attempts and a first delay of one
    second, a call of the helper invokes at most three times and waits at
    most three seconds. *)
Lemma retry_default_bounds {W T : Type} (sleep : Z → W → W) (fn : Async W T) (w : W) :
  (invocations (retryWithBackoff sleep fn 3 1000 w).2 ≤ 3)%nat
  ∧ 0 ≤ waited (retryWithBackoff sleep fn 3 1000 w).2 ≤ 3000.
Proof.
  unfold retryWithBackoff.
  destruct (retry_loop_cases sleep fn 3 1000 2 0 None w) as (k & Hk & _ & _ & ->); [done|].
  cbn [snd]. rewrite invocations_backoff_trace, waited_backoff_trace by lia.
  destruct k as [|[|[|k]]]; [simpl; lia..|lia].
Qed.

Lemma run_trace_request (block_number offset : Z) (trace : list Event) :
  run_trace [RequestTransactions block_number offset trace] = trace.
Proof. unfold run_trace. simpl. by rewrite app_nil_r. Qed.

Lemma run_trace_request_warn (block_number offset : Z) (trace : list Event) :
  run_trace [RequestTransactions block_number offset trace; Warn block_number] = trace.
Proof. unfold run_trace. simpl. by rewrite app_nil_r. Qed.

Lemma run_trace_blocks (limit : Js.number) (trace : list Event) :
  run_trace [RequestBlocks limit trace] = trace.
Proof. unfold run_trace. simpl. by rewrite app_nil_r. Qed.

Section main_runs.

Context {W : Type}.
Variable sleep : Z → W → W.
Variable getLatestBlocks : Js.number → Async W (list Block).
Variable getTransactions : Z → Z → Async W (list Transaction).

Lemma fetch_step_budget (st : list Transaction * W * list MainEvent) (block : Block) :
  (invocations (run_trace (fetch_step sleep getTransactions st block).2)
   ≤ invocations (run_trace st.2) + 3)%nat
  ∧ waited (run_trace st.2)
    ≤ waited (run_trace (fetch_step sleep getTransactions st block).2)
    ≤ waited (run_trace st.2) + 3000.
Proof.
  destruct st as [[transactions w] log]. unfold fetch_step.
  pose proof (retry_default_bounds sleep (getTransactions (number block) 100) w) as [Hi Hw].
  destruct (retryWithBackoff sleep (getTransactions (number block) 100) 3 1000 w)
    as [[[blockTxs|reason] w1] trace]; cbn [snd] in *;
    rewrite run_trace_app, invocations_app, waited_app;
    rewrite ?run_trace_request, ?run_trace_request_warn; lia.
Qed.

Lemma fetch_fold_budget (blocks : list Block) (st : list Transaction * W * list MainEvent) :
  (invocations (run_trace (fold_left (fetch_step sleep getTransactions) blocks st).2)
   ≤ invocations (run_trace st.2) + 3 * length blocks)%nat
  ∧ waited (run_trace st.2)
    ≤ waited (run_trace (fold_left (fetch_step sleep getTransactions) blocks st).2)
    ≤ waited (run_trace st.2) + 3000 * Z.of_nat (length blocks).
Proof.
  revert st. induction blocks as [|b bs IH]; intros st; [simpl; lia|].
  cbn [fold_left length]. pose proof (fetch_step_budget st b).
  pose proof (IH (fetch_step sleep getTransactions st b)). lia.
Qed.

End main_runs.

(** X15: a run of [main] invokes the API at most 63 times, three times
    for the list of blocks and three times for each of at most 20 blocks,
    and the backoff waits of a run add up to at most 63 seconds. *)
Theorem main_request_budget {W : Type} (sleep : Z → W → W)
    (getLatestBlocks : Js.number → Async W (list Block))
    (getTransactions : Z → Z → Async W (list Transaction))
    (BLOCK_RANGE : option string) (w : W) :
  (invocations (run_trace (main sleep getLatestBlocks getTransactions BLOCK_RANGE w).2) ≤ 63)%nat
  ∧ 0 ≤ waited (run_trace (main sleep getLatestBlocks getTransactions BLOCK_RANGE w).2) ≤ 63000.
Proof.
  unfold main.
  pose proof (retry_default_bounds sleep
                (getLatestBlocks (parseInt (or_else BLOCK_RANGE "100") 10)) w) as [Hi Hw].
  destruct (retryWithBackoff sleep _ 3 1000 w) as [[[blocks|reason] w1] trace]; cbn [snd] in *.
  - case_decide.
    + cbn [snd]. rewrite run_trace_blocks. lia.
    + pose proof (fetch_fold_budget sleep getTransactions (analyzedBlocks blocks)
                    ([], w1, [RequestBlocks (parseInt (or_else BLOCK_RANGE "100") 10) trace]))
        as Hfold.
      destruct (fold_left _ _ _) as [[transactions w2] log]. cbn [snd] in Hfold.
      rewrite run_trace_blocks in Hfold.
      assert (length (analyzedBlocks blocks) ≤ 20)%nat
        by (rewrite analyzedBlocks_take, length_take; lia).
      destruct (computeStatistics blocks transactions); cbn [snd]; lia.
  - cbn [snd]. rewrite run_trace_blocks. lia.
Qed.

(** Only a gas price can stop the statistics. *)
Lemma computeAverageGasPrice_returns_inv (transactions : list Transaction) (stats : GasPriceStats) :
  computeAverageGasPrice transactions = Return stats →
  Forall (fun tx => is_BigInt_literal (or_else (gas_price tx) "0")) transactions.
Proof.
  intros Hret. apply Forall_forall. intros t Ht.
  destruct (StringToBigInt (or_else (gas_price t) "0")) eqn:Hs; [by eexists|].
  destruct (computeAverageGasPrice_throws transactions) as [e He]; [|congruence].
  apply Exists_exists. exists t. by split.
Qed.

(** X16: the seven statistics of [main] are all computed exactly when
    every transaction's [gas_price] (['0'] if it is missing or empty) is
    a string [BigInt] accepts; no block, address, timestamp or value can
    stop them, and what they give is what the seven functions give. *)
Theorem computeStatistics_returns_iff (blocks : list Block) (transactions : list Transaction) :
  (Forall (fun tx => is_BigInt_literal (or_else (gas_price tx) "0")) transactions
   ↔ ∃ statistics, computeStatistics blocks transactions = Return statistics)
  ∧ ∀ statistics, computeStatistics blocks transactions = Return statistics →
      transactionVolume statistics = computeTransactionVolume blocks
      ∧ computeAverageGasPrice transactions = Return (gasPriceStats statistics)
      ∧ activeAddresses statistics = computeActiveAddresses transactions
      ∧ contractDeployments statistics = computeContractDeployments transactions
      ∧ blockTimeStats statistics = computeBlockTimeStats blocks
      ∧ topAddresses statistics = computeTopAddresses transactions (Some 5)
      ∧ computeTransactionValueStats transactions = Return (valueStats statistics).
Proof.
  unfold computeStatistics. rewrite computeTransactionValueStats_amounts.
  split; [split|].
  - intros Hall. destruct (computeAverageGasPrice_returns transactions Hall) as [stats ->].
    rewrite !bind_Return. by eexists.
  - intros [statistics Hret].
    destruct (computeAverageGasPrice transactions) as [stats|e] eqn:Hgas; [|done].
    by eapply computeAverageGasPrice_returns_inv.
  - intros statistics Hret.
    destruct (computeAverageGasPrice transactions) as [stats|e] eqn:Hgas; [|done].
    rewrite !bind_Return in Hret. injection Hret as <-. done.
Qed.

Lemma computeStatistics_returns_iff_witness :
  ∃ statistics, computeStatistics demo_blocks [tx "0xa" "0xb" "1" "0x3b9aca00"] = Return statistics.
Proof.
  apply (proj1 (proj1 (computeStatistics_returns_iff demo_blocks
                         [tx "0xa" "0xb" "1" "0x3b9aca00"]))).
  repeat constructor. by eexists.
Defined.



(** ** The client: timestamps written and read back *)

Lemma digitValue_pretty_N_char (d : N) :
  (d < 10)%N → digitValue 10 (pretty_N_char d) = Some (Z.of_N d).
Proof.
  intros Hd.
  assert (d = 0 ∨ d = 1 ∨ d = 2 ∨ d = 3 ∨ d = 4 ∨ d = 5 ∨ d = 6 ∨ d = 7 ∨ d = 8 ∨ d = 9)%N
    as Hcases by lia.
  by repeat destruct Hcases as [->|Hcases]; [..|subst d].
Qed.

(** The digits [pretty] writes are the digits [parseInt] reads. *)
Lemma digitsPrefix_pretty_N_go (x : N) (s : string) :
  (0 < x)%N →
  digitsPrefix 10 None (pretty_N_go x s) = digitsPrefix 10 (Some (Z.of_N x)) s.
Proof.
  revert s. induction (N.lt_wf_0 x) as [x _ IH]; intros s Hx.
  rewrite pretty_N_go_step by done.
  assert (Hmod : (x `mod` 10 < 10)%N) by (apply N.mod_lt; lia).
  assert (Hdm : Z.of_N x = Z.of_N (x `div` 10) * 10 + Z.of_N (x `mod` 10)).
  { rewrite (N.div_mod x 10) at 1 by lia. rewrite N2Z.inj_add, N2Z.inj_mul. lia. }
  destruct (decide (x `div` 10 = 0)%N) as [Hdiv|Hdiv].
  - rewrite Hdiv in *. rewrite pretty_N_go_0. cbn [digitsPrefix].
    rewrite digitValue_pretty_N_char by done. cbn [default]. by rewrite Hdm.
  - rewrite IH by (try apply N.div_lt; lia). cbn [digitsPrefix].
    rewrite digitValue_pretty_N_char by done. cbn [default]. by rewrite Hdm.
Qed.

(** They start with a digit that is not zero. *)
Lemma pretty_N_go_head (x : N) (s : string) :
  (0 < x)%N →
  ∃ d r, (1 ≤ d ≤ 9)%N ∧ pretty_N_go x s = String (pretty_N_char d) r.
Proof.
  revert s. induction (N.lt_wf_0 x) as [x _ IH]; intros s Hx.
  rewrite pretty_N_go_step by done.
  pose proof (N.mod_lt x 10 ltac:(lia)) as Hmod.
  pose proof (N.div_mod x 10 ltac:(lia)) as Hdm.
  destruct (decide (x `div` 10 = 0)%N) as [Hdiv|Hdiv].
  - rewrite Hdiv in *. rewrite pretty_N_go_0. rewrite N.mul_0_r, N.add_0_l in Hdm.
    exists (x `mod` 10)%N, s. split; [|done]. rewrite <- Hdm. lia.
  - apply IH; [apply N.div_lt|]; lia.
Qed.

Lemma parseInt_digit (d : N) (r : string) :
  (1 ≤ d ≤ 9)%N →
  parseInt (String (pretty_N_char d) r) 0
  = match digitsPrefix 10 None (String (pretty_N_char d) r) with
    | Some v => Js.of_Z (1 * v)
    | None => NaN
    end.
Proof.
  intros Hd.
  assert (d = 1 ∨ d = 2 ∨ d = 3 ∨ d = 4 ∨ d = 5 ∨ d = 6 ∨ d = 7 ∨ d = 8 ∨ d = 9)%N
    as Hcases by lia.
  by repeat destruct Hcases as [->|Hcases]; [..|subst d].
Qed.

Lemma parseInt_minus_digit (d : N) (r : string) :
  (1 ≤ d ≤ 9)%N →
  parseInt (String "-" (String (pretty_N_char d) r)) 0
  = match digitsPrefix 10 None (String (pretty_N_char d) r) with
    | Some v => Js.of_Z (-1 * v)
    | None => NaN
    end.
Proof.
  intros Hd.
  assert (d = 1 ∨ d = 2 ∨ d = 3 ∨ d = 4 ∨ d = 5 ∨ d = 6 ∨ d = 7 ∨ d = 8 ∨ d = 9)%N
    as Hcases by lia.
  by repeat destruct Hcases as [->|Hcases]; [..|subst d].
Qed.

(** An integer printed in decimal is read back by [parseInt]. *)
Lemma parseInt_pretty (z : Z) : parseInt (pretty z) 0 = Js.of_Z z.
Proof.
  destruct z as [|p|p].
  - reflexivity.
  - change (pretty (Z.pos p)) with (pretty (N.pos p)). unfold pretty, pretty_N.
    rewrite decide_False by done.
    destruct (pretty_N_go_head (N.pos p) "") as (d & r & Hd & Heq); [lia|].
    rewrite Heq, parseInt_digit, <- Heq, digitsPrefix_pretty_N_go by (done || lia).
    cbn [digitsPrefix]. f_equal.
  - change (pretty (Z.neg p)) with ("-" +:+ pretty (N.pos p)). unfold pretty, pretty_N.
    rewrite decide_False by done.
    destruct (pretty_N_go_head (N.pos p) "") as (d & r & Hd & Heq); [lia|].
    rewrite Heq. change ("-" +:+ String ?c ?s) with (String "-" (String c s)).
    rewrite parseInt_minus_digit, <- Heq, digitsPrefix_pretty_N_go by (done || lia).
    cbn [digitsPrefix]. f_equal.
Qed.

(** X18: the timestamp string the client writes for a date is read back
    by [parseInt], as [computeBlockTimeStats] reads it, as the whole
    seconds of the date (rounded down, also before 1970), and as NaN for a
    string that is no date. *)
Theorem isoToUnixTimestamp_parseInt (Date_parse : string → option Z) (isoString : string) :
  parseInt (isoToUnixTimestamp Date_parse isoString) 0
  = match Date_getTime Date_parse isoString with
    | Some ms => Js.of_Z (ms `div` 1000)
    | None => NaN
    end.
Proof.
  unfold isoToUnixTimestamp. destruct (Date_getTime Date_parse isoString) as [ms|].
  - apply parseInt_pretty.
  - reflexivity.
Qed.

Example isoToUnixTimestamp_demo :
  isoToUnixTimestamp demo_Date_parse "2024-01-01T00:00:01.500Z" = "1704067201"
  ∧ isoToUnixTimestamp demo_Date_parse "1969-12-31T23:59:59.500Z" = "-1"
  ∧ isoToUnixTimestamp demo_Date_parse "yesterday" = "NaN".
Proof. vm_compute. done. Qed.

(** ** The client: what a transaction list looks like *)

Lemma or_else_nonempty (x : option string) (d : string) : d ≠ "" → or_else x d ≠ "".
Proof. intros Hd. destruct x as [[|c s]|]; simpl; done. Qed.

Lemma toTransaction_defaults_filled (Date_parse : string → option Z) (apiTx : ApiTransaction) :
  defaults_filled (toTransaction Date_parse apiTx).
Proof.
  unfold defaults_filled, toTransaction. cbn [to value gas_price gas_used gas].
  split_and!.
  - destruct (api_to apiTx ≫= address_hash) as [[|c s]|]; simpl; done.
  - eexists. split; [done|]. by apply or_else_nonempty.
  - eexists. split; [done|]. by apply or_else_nonempty.
  - by apply or_else_nonempty.
  - by apply or_else_nonempty.
Qed.

Lemma getTransactions_items {W AddressInfo : Type} (Date_parse : string → option Z)
    (client : AxiosInstance W AddressInfo) (params : TransactionsParams) (w w' : W)
    (transactions : list Transaction) :
  getTransactions Date_parse client params w = (Resolved transactions, w') →
  ∃ items, transactions = map (toTransaction Date_parse) items.
Proof.
  unfold getTransactions. destruct (get_transactions client _ w) as [[data|error] w0]; [|done].
  destruct (data ≫= transactions_items) as [items|]; [|done].
  intros [= <- _]. by exists items.
Qed.

Lemma getTransactions_defaults_filled {W AddressInfo : Type} (Date_parse : string → option Z)
    (client : AxiosInstance W AddressInfo) (params : TransactionsParams) (w w' : W)
    (transactions : list Transaction) :
  getTransactions Date_parse client params w = (Resolved transactions, w') →
  Forall defaults_filled transactions.
Proof.
  intros [items ->]%getTransactions_items.
  change (map ?f ?l) with (f <$> l). apply Forall_fmap, Forall_forall.
  intros a _. apply toTransaction_defaults_filled.
Qed.

Lemma deployments_defaults_filled (transactions : list Transaction) :
  Forall defaults_filled transactions →
  filter (fun tx => isDeployment tx = true) transactions
  = filter (fun tx => to tx = None) transactions.
Proof.
  induction 1 as [|t l [Hto _] _ IH]; [done|].
  rewrite !filter_cons, IH. unfold isDeployment.
  destruct (to t) as [[|c s]|]; [done|..].
  - by rewrite decide_False, (decide_False (P := Some _ = None)) by done.
  - by rewrite decide_True, (decide_True (P := None = None)) by done.
Qed.

(** X19: the transactions [getTransactions] resolves with have every
    default filled in: no recipient is the empty string, and [value],
    [gas_price], [gas_used] and [gas] are never absent or empty; so among
    them the deployments [computeContractDeployments] counts are exactly
    those without recipient. *)
Theorem getTransactions_resolved {W AddressInfo : Type} (Date_parse : string → option Z)
    (client : AxiosInstance W AddressInfo) (params : TransactionsParams) (w w' : W)
    (transactions : list Transaction) :
  getTransactions Date_parse client params w = (Resolved transactions, w') →
  Forall defaults_filled transactions
  ∧ totalDeployments (computeContractDeployments transactions)
    = length (filter (fun tx => to tx = None) transactions).
Proof.
  intros Hdefaults%getTransactions_defaults_filled. split; [done|].
  unfold computeContractDeployments. cbn [totalDeployments].
  by rewrite deployments_defaults_filled.
Qed.

Lemma getTransactions_resolved_witness :
  Forall defaults_filled
    [mkTransaction "0x1" "0xA" (Some "0xB") (Some "5") (Some "1000000000") "21000" "21000"
       "1704067201";
     mkTransaction "0x2" "0xA" None (Some "0") (Some "0") "0" "0" "NaN"]
  ∧ totalDeployments (computeContractDeployments
      [mkTransaction "0x1" "0xA" (Some "0xB") (Some "5") (Some "1000000000") "21000" "21000"
         "1704067201";
       mkTransaction "0x2" "0xA" None (Some "0") (Some "0") "0" "0" "NaN"])
    = length (filter (fun tx => to tx = None)
        [mkTransaction "0x1" "0xA" (Some "0xB") (Some "5") (Some "1000000000") "21000" "21000"
           "1704067201";
         mkTransaction "0x2" "0xA" None (Some "0") (Some "0") "0" "0" "NaN"]).
Proof.
  apply (getTransactions_resolved demo_Date_parse demo_client
           (mkTransactionsParams (Some 7) None None (Some 100)) tt tt).
  vm_compute. reflexivity.
Defined.

(** ** The client and the block times *)

Lemma toBlock_seconds (Date_parse : string → option Z) (apiBlock : ApiBlock) :
  parseInt (block_timestamp (toBlock Date_parse apiBlock)) 0
  = seconds_of Date_parse (api_block_timestamp apiBlock).
Proof.
  unfold toBlock, seconds_of, isoToUnixTimestamp. cbn [block_timestamp].
  destruct (Date_getTime Date_parse _); [apply parseInt_pretty | done].
Qed.

(** X20: for two or more blocks as [getLatestBlocks] translates them, the
    block times are differences of whole seconds: when every timestamp is
    a date, the average is the seconds of a block of greatest height minus
    the seconds of a block of least height, over the number of blocks
    minus one; when one timestamp is no date, average, minimum and maximum
    are NaN. *)
Theorem toBlock_block_times (Date_parse : string → option Z) (items : list ApiBlock) :
  (2 ≤ length items)%nat →
  (Forall (fun a => is_finite (seconds_of Date_parse (api_block_timestamp a))) items →
   ∃ lo hi,
     lo ∈ items ∧ hi ∈ items
     ∧ (∀ a, a ∈ items → height lo ≤ height a ≤ height hi)
     ∧ averageBlockTimeSeconds (computeBlockTimeStats (map (toBlock Date_parse) items))
       = Js.div (Js.sub (seconds_of Date_parse (api_block_timestamp hi))
                        (seconds_of Date_parse (api_block_timestamp lo)))
                (Js.of_nat (length items - 1)))
  ∧ (Exists (fun a => seconds_of Date_parse (api_block_timestamp a) = NaN) items →
     computeBlockTimeStats (map (toBlock Date_parse) items)
     = mkBlockTimeStats NaN NaN NaN (length items)).
Proof.
  intros Hlen.
  assert (Hlen' : (2 ≤ length (map (toBlock Date_parse) items))%nat) by (by rewrite length_map).
  destruct (computeBlockTimeStats_deltas _ Hlen') as (d & ds & Hds & Hn & ->).
  rewrite length_map in Hn. rewrite length_map. split.
  - intros Hfin.
    destruct (timestamps_sum_extremes (map (toBlock Date_parse) items))
      as (lo' & hi' & Hlo & Hhi & Hbounds & Hsum); [done| |].
    { change (map ?f ?l) with (f <$> l). apply Forall_fmap.
      eapply Forall_impl; [exact Hfin|]. intros a Ha. unfold compose.
      by rewrite toBlock_seconds. }
    change (map ?f ?l) with (f <$> l) in Hlo, Hhi.
    apply list_elem_of_fmap in Hlo as (lo & -> & Hlo).
    apply list_elem_of_fmap in Hhi as (hi & -> & Hhi).
    exists lo, hi. split_and!; [done..| |].
    + intros a Ha. apply (Hbounds (toBlock Date_parse a)).
      change (map ?f ?l) with (f <$> l). by apply list_elem_of_fmap_2.
    + cbn [averageBlockTimeSeconds]. unfold mean.
      by rewrite Hn, <- Hds, Hsum, !toBlock_seconds.
  - intros (a & Ha & Hnan)%Exists_exists.
    assert (Hin : NaN ∈ d :: ds).
    { rewrite <- Hds.
      apply (timestamps_NaN_delta _ (toBlock Date_parse a));
        [done| |by rewrite toBlock_seconds].
      change (map ?f ?l) with (f <$> l). by apply list_elem_of_fmap_2. }
    unfold mean. by rewrite number_sum_NaN, Math_min_NaN, Math_max_NaN.
Qed.

Lemma toBlock_block_times_witness :
  (∃ lo hi,
     lo ∈ [mkApiBlock "0xb2" 2 "2024-01-01T00:00:01.500Z" 7;
           mkApiBlock "0xb1" 1 "1969-12-31T23:59:59.500Z" 3]
     ∧ hi ∈ [mkApiBlock "0xb2" 2 "2024-01-01T00:00:01.500Z" 7;
             mkApiBlock "0xb1" 1 "1969-12-31T23:59:59.500Z" 3]
     ∧ (∀ a, a ∈ [mkApiBlock "0xb2" 2 "2024-01-01T00:00:01.500Z" 7;
                  mkApiBlock "0xb1" 1 "1969-12-31T23:59:59.500Z" 3] →
             height lo ≤ height a ≤ height hi)
     ∧ averageBlockTimeSeconds
         (computeBlockTimeStats
            (map (toBlock demo_Date_parse)
               [mkApiBlock "0xb2" 2 "2024-01-01T00:00:01.500Z" 7;
                mkApiBlock "0xb1" 1 "1969-12-31T23:59:59.500Z" 3]))
       = Js.div (Js.sub (seconds_of demo_Date_parse (api_block_timestamp hi))
                        (seconds_of demo_Date_parse (api_block_timestamp lo)))
                (Js.of_nat 1))
  ∧ computeBlockTimeStats
      (map (toBlock demo_Date_parse)
         [mkApiBlock "0xb2" 2 "2024-01-01T00:00:01.500Z" 7; mkApiBlock "0xb1" 1 "soon" 3])
    = mkBlockTimeStats NaN NaN NaN 2.
Proof.
  split.
  - apply (proj1 (toBlock_block_times demo_Date_parse
                    [mkApiBlock "0xb2" 2 "2024-01-01T00:00:01.500Z" 7;
                     mkApiBlock "0xb1" 1 "1969-12-31T23:59:59.500Z" 3] ltac:(simpl; lia))).
    repeat constructor.
  - apply (proj2 (toBlock_block_times demo_Date_parse
                    [mkApiBlock "0xb2" 2 "2024-01-01T00:00:01.500Z" 7;
                     mkApiBlock "0xb1" 1 "soon" 3] ltac:(simpl; lia))).
    apply Exists_cons_tl, Exists_cons_hd. reflexivity.
Defined.

(** ** The program: what stops a run on the client *)

(** The helper resolves only with what the operation resolved with. *)
Lemma attempt_from_origin {W T : Type} (sleep : Z → W → W) (fn : Async W T)
    (initialDelay attempt : Z) (k : nat) (w w' : W) (v : T) :
  attempt_from sleep fn initialDelay attempt k w = (Resolved v, w') →
  ∃ w0, fn w0 = (Resolved v, w').
Proof.
  revert attempt w. induction k as [|k IH]; intros attempt w; cbn [attempt_from]; eauto.
Qed.

Lemma retryWithBackoff_origin {W T : Type} (sleep : Z → W → W) (fn : Async W T)
    (maxRetries initialDelay : Z) (w w' : W) (v : T) (trace : list Event) :
  retryWithBackoff sleep fn maxRetries initialDelay w = (Resolved v, w', trace) →
  ∃ w0, fn w0 = (Resolved v, w').
Proof.
  unfold retryWithBackoff. intros Hrun.
  destruct (decide (maxRetries ≤ 0)) as [Hm|Hm].
  { by rewrite retry_loop_done in Hrun by lia. }
  destruct (retry_loop_cases sleep fn maxRetries initialDelay (Z.to_nat maxRetries - 1) 0 None w)
    as (k & _ & _ & _ & Heq); [lia|].
  rewrite Heq in Hrun.
  destruct (attempt_from sleep fn initialDelay 0 k w) as [[v0|error] w0] eqn:Hlast;
    [|discriminate Hrun].
  cbn in Hrun. injection Hrun as -> -> _. by eapply attempt_from_origin.
Qed.

(** What holds of every list a fetch resolves with holds of the
    transactions collected. *)
Lemma collected_Forall {W : Type} (sleep : Z → W → W)
    (getTransactions : Z → Z → Async W (list Transaction)) (P : Transaction → Prop)
    (blocks : list Block) (w : W) :
  (∀ block_number w0 w' transactions,
     getTransactions block_number 100 w0 = (Resolved transactions, w') →
     Forall P transactions) →
  Forall P (collected sleep getTransactions blocks w).
Proof.
  intros Hfetch. revert w. induction blocks as [|b bs IH]; intros w; [constructor|].
  cbn [collected].
  destruct (retryWithBackoff sleep (getTransactions (number b) 100) 3 1000 w)
    as [[[blockTxs|reason] w1] trace] eqn:Hrun; apply Forall_app; split; try apply IH.
  - apply retryWithBackoff_origin in Hrun as [w0 Hw0]. by eapply Hfetch.
  - constructor.
Qed.

Lemma computeStatistics_Return (blocks : list Block) (transactions : list Transaction)
    (statistics : Statistics) :
  computeStatistics blocks transactions = Return statistics →
  computeAverageGasPrice transactions = Return (gasPriceStats statistics).
Proof.
  unfold computeStatistics. rewrite computeTransactionValueStats_amounts.
  destruct (computeAverageGasPrice transactions) as [stats|e]; [|done].
  rewrite !bind_Return. by intros [= <-].
Qed.

Lemma computeStatistics_Throw (blocks : list Block) (transactions : list Transaction)
    (e : Error) :
  computeStatistics blocks transactions = Throw e →
  computeAverageGasPrice transactions = Throw e.
Proof.
  unfold computeStatistics. rewrite computeTransactionValueStats_amounts.
  destruct (computeAverageGasPrice transactions) as [stats|e0].
  - rewrite !bind_Return. done.
  - by intros [= ->].
Qed.

Lemma or_else_filled (g d : string) : g ≠ "" → or_else (Some g) d = g.
Proof. by destruct g. Qed.

(** X21: on the client, once a list of blocks that is not empty is
    fetched, a run ends in one of two ways. Either it computes the
    statistics, over these blocks and the transactions collected for the
    first 20, and then every gas price collected is a string [BigInt]
    accepts; or it exits with code 1, and then a transaction collected
    carries a gas price that [BigInt] rejects. A field the API leaves out
    or leaves empty never stops a run. *)
Theorem program_outcome {W AddressInfo : Type} (Date_parse : string → option Z)
    (client : AxiosInstance W AddressInfo) (sleep : Z → W → W) (BLOCK_RANGE : option string)
    (w w1 : W) (blocks : list Block) (trace : list Event) :
  retryWithBackoff sleep
    (main_getLatestBlocks Date_parse client (parseInt (or_else BLOCK_RANGE "100") 10)) 3 1000 w
  = (Resolved blocks, w1, trace) →
  blocks ≠ [] →
  match (program Date_parse client sleep BLOCK_RANGE w).1.1 with
  | Completed blocks' transactions _ =>
      blocks' = blocks
      ∧ transactions
        = collected sleep (main_getTransactions Date_parse client) (take 20 blocks) w1
      ∧ Forall (fun t => ∃ g, gas_price t = Some g ∧ is_BigInt_literal g) transactions
  | Exit code =>
      code = 1
      ∧ Exists (fun t => ∃ g, gas_price t = Some g ∧ ¬ is_BigInt_literal g)
          (collected sleep (main_getTransactions Date_parse client) (take 20 blocks) w1)
  end.
Proof.
  intros Hblocks Hne. unfold program, main. rewrite Hblocks.
  rewrite decide_False by (by destruct blocks).
  rewrite analyzedBlocks_take.
  destruct (fetch_fold sleep (main_getTransactions Date_parse client) (take 20 blocks) [] w1
              [RequestBlocks (parseInt (or_else BLOCK_RANGE "100") 10) trace])
    as (w2 & Hfold & _).
  rewrite Hfold. simpl app.
  set (transactions := collected sleep (main_getTransactions Date_parse client)
                         (take 20 blocks) w1).
  assert (Hfilled : Forall defaults_filled transactions).
  { apply collected_Forall. intros block_number w0 w' txs Hres.
    by eapply getTransactions_defaults_filled. }
  destruct (computeStatistics blocks transactions) as [statistics|e] eqn:Hstats; cbn [fst].
  - split_and!; [done..|].
    apply computeStatistics_Return, computeAverageGasPrice_returns_inv in Hstats.
    rewrite Forall_forall in Hfilled, Hstats. apply Forall_forall. intros t Ht.
    destruct (Hfilled t Ht) as (_ & _ & (g & Hg & Hne') & _).
    exists g. split; [done|]. specialize (Hstats t Ht). cbv beta in Hstats.
    by rewrite Hg, or_else_filled in Hstats.
  - split; [done|]. apply computeStatistics_Throw in Hstats.
    destruct (decide (Forall (fun t => is_Some (StringToBigInt (or_else (gas_price t) "0")))
                        transactions)) as [Hall|Hnot].
    + destruct (computeAverageGasPrice_returns transactions Hall) as [stats Hs]. congruence.
    + apply not_Forall_Exists in Hnot; [|apply _].
      apply Exists_exists in Hnot as (t & Ht & Hbad). apply Exists_exists.
      exists t. split; [done|].
      rewrite Forall_forall in Hfilled.
      destruct (Hfilled t Ht) as (_ & _ & (g & Hg & Hne') & _).
      exists g. split; [done|]. unfold compose in Hbad.
      by rewrite Hg, or_else_filled in Hbad.
Qed.

Lemma program_outcome_witness :
  match (program demo_Date_parse demo_client (fun _ w => w) None tt).1.1 with
  | Completed blocks' transactions _ =>
      blocks' = [mkBlock "0xb2" 2 "1704067201" 7; mkBlock "0xb1" 1 "-1" 3]
      ∧ transactions
        = collected (fun _ w => w) (main_getTransactions demo_Date_parse demo_client)
            (take 20 [mkBlock "0xb2" 2 "1704067201" 7; mkBlock "0xb1" 1 "-1" 3]) tt
      ∧ Forall (fun t => ∃ g, gas_price t = Some g ∧ is_BigInt_literal g) transactions
  | Exit code =>
      code = 1
      ∧ Exists (fun t => ∃ g, gas_price t = Some g ∧ ¬ is_BigInt_literal g)
          (collected (fun _ w => w) (main_getTransactions demo_Date_parse demo_client)
             (take 20 [mkBlock "0xb2" 2 "1704067201" 7; mkBlock "0xb1" 1 "-1" 3]) tt)
  end.
Proof.
  apply (program_outcome demo_Date_parse demo_client (fun _ w => w) None tt tt
           [mkBlock "0xb2" 2 "1704067201" 7; mkBlock "0xb1" 1 "-1" 3] [Invoke]).
  - vm_compute. reflexivity.
  - discriminate.
Defined.

(** ** Addresses are compared without regard to case *)

Lemma toLowerCase_truthy (s s' : string) :
  toLowerCase s = toLowerCase s' → truthy s = truthy s'.
Proof. by destruct s, s'. Qed.

Lemma activeAddresses_step_case (sets : AddressSets) (t t' : Transaction) :
  toLowerCase (from t) = toLowerCase (from t') →
  toLowerCase <$> to t = toLowerCase <$> to t' →
  activeAddresses_step sets t = activeAddresses_step sets t'.
Proof.
  intros Hfrom Hto. unfold activeAddresses_step.
  rewrite (toLowerCase_truthy _ _ Hfrom), Hfrom.
  destruct (to t) as [r|], (to t') as [r'|]; try done.
  injection Hto as Hto. by rewrite (toLowerCase_truthy _ _ Hto), Hto.
Qed.

Lemma topAddresses_step_case (addressCounts : JsMap) (t t' : Transaction) :
  toLowerCase (from t) = toLowerCase (from t') →
  toLowerCase <$> to t = toLowerCase <$> to t' →
  topAddresses_step addressCounts t = topAddresses_step addressCounts t'.
Proof.
  intros Hfrom Hto. unfold topAddresses_step.
  rewrite (toLowerCase_truthy _ _ Hfrom), Hfrom.
  destruct (to t) as [r|], (to t') as [r'|]; try done.
  injection Hto as Hto. by rewrite (toLowerCase_truthy _ _ Hto), Hto.
Qed.

Lemma fold_left_Forall2 {A B} (R : B → B → Prop) (f : A → B → A) (l l' : list B) (a : A) :
  (∀ a x x', R x x' → f a x = f a x') →
  Forall2 R l l' → fold_left f l a = fold_left f l' a.
Proof.
  intros Hf Hl. revert a. induction Hl as [|x x' l l' Hx _ IH]; intros a; [done|].
  cbn [fold_left]. by rewrite (Hf a x x' Hx), IH.
Qed.

(** X22: addresses that differ only in the case of their letters are the
    same address: two lists of transactions whose senders and recipients
    agree up to case, transaction by transaction, have the same address
    counts and the same most active addresses. *)
Theorem addresses_case_insensitive (transactions transactions' : list Transaction)
    (limit : option Z) :
  Forall2 (fun t t' => toLowerCase (from t) = toLowerCase (from t')
                       ∧ toLowerCase <$> to t = toLowerCase <$> to t')
          transactions transactions' →
  computeActiveAddresses transactions = computeActiveAddresses transactions'
  ∧ computeTopAddresses transactions limit = computeTopAddresses transactions' limit.
Proof.
  intros Hcase. split.
  - unfold computeActiveAddresses.
    erewrite (fold_left_Forall2 _ activeAddresses_step); [done| |exact Hcase].
    intros sets t t' [Hfrom Hto]. by apply activeAddresses_step_case.
  - unfold computeTopAddresses.
    erewrite (fold_left_Forall2 _ topAddresses_step); [done| |exact Hcase].
    intros m t t' [Hfrom Hto]. by apply topAddresses_step_case.
Qed.

Lemma addresses_case_insensitive_witness :
  computeActiveAddresses [tx "0xAbC" "0xDEF" "1" "1"; tx_to None]
  = computeActiveAddresses [tx "0xabc" "0xdef" "1" "1"; tx_to None]
  ∧ computeTopAddresses [tx "0xAbC" "0xDEF" "1" "1"; tx_to None] (Some 5)
    = computeTopAddresses [tx "0xabc" "0xdef" "1" "1"; tx_to None] (Some 5).
Proof.
  apply (addresses_case_insensitive [tx "0xAbC" "0xDEF" "1" "1"; tx_to None]
           [tx "0xabc" "0xdef" "1" "1"; tx_to None] (Some 5)).
  repeat constructor.
Defined.

(** ** The client under the retry helper *)

Lemma attempt_from_rejected_origin {W T : Type} (sleep : Z → W → W) (fn : Async W T)
    (initialDelay attempt : Z) (k : nat) (w w' : W) (reason : Thrown) :
  attempt_from sleep fn initialDelay attempt k w = (Rejected reason, w') →
  ∃ w0, fn w0 = (Rejected reason, w').
Proof.
  revert attempt w. induction k as [|k IH]; intros attempt w; cbn [attempt_from]; eauto.
Qed.

(** When the operation rejects with Errors only, the helper hands on the
    last failure untouched. *)
Lemma rejects_with_Errors_surfaces {W T : Type} (sleep : Z → W → W) (fn : Async W T) :
  rejects_with_Errors fn → surfaces_last_failure sleep fn.
Proof.
  intros Hfn maxRetries initialDelay w reason w' trace Hm Hrun. unfold retryWithBackoff in Hrun.
  destruct (retry_loop_cases sleep fn maxRetries initialDelay (Z.to_nat maxRetries - 1) 0 None w)
    as (k & _ & _ & Hlast & Heq); [lia|].
  rewrite Heq in Hrun.
  destruct (attempt_from sleep fn initialDelay 0 k w) as [[v|error] w0] eqn:Hk;
    [discriminate Hrun|].
  cbn in Hrun. injection Hrun as <- <- _.
  assert (k = (Z.to_nat maxRetries - 1)%nat) as -> by (apply Hlast; by unfold rejects).
  replace (Z.to_nat (maxRetries - 1)) with (Z.to_nat maxRetries - 1)%nat by lia.
  rewrite Hk. destruct (attempt_from_rejected_origin _ _ _ _ _ _ _ _ Hk) as [w1 Hw1].
  by destruct (Hfn _ _ _ Hw1) as [e ->].
Qed.

Lemma catch_block_Error {D : Type} (outcome : AxiosSettled D) (error : AxiosThrown) :
  Error_outcome outcome → outcome = AxiosRejected error → ∃ e, catch_block error = ThrownError e.
Proof.
  intros Hout ->. destruct error as [error|[e|str]]; [|by eexists|done].
  unfold catch_block. case_decide; [by eexists|].
  destruct (response error ≫= error_data); by eexists.
Qed.

Section client_rejections.

Context {W AddressInfo : Type}.
Variable Date_parse : string → option Z.
Variable client : AxiosInstance W AddressInfo.
Hypothesis client_throws_Errors : throws_Errors client.

Lemma getLatestBlocks_rejects_with_Errors (limit : option Js.number) :
  rejects_with_Errors (getLatestBlocks Date_parse client limit).
Proof.
  intros w reason w'. unfold getLatestBlocks.
  destruct (client_throws_Errors
              (mkRequest "/v2/blocks" [("page", ParamNumber (Js.of_Z 1));
                                       ("offset", ParamNumber (default (Js.of_Z 100) limit))]) w)
    as (Hout & _).
  destruct (get_blocks client _ w) as [[data|error] w0] eqn:Hget; cbn [fst] in Hout.
  - destruct (data ≫= blocks_items); intros [= <- _]; by eexists.
  - intros [= <- _]. by eapply catch_block_Error.
Qed.

Lemma getBlock_rejects_with_Errors (blockNumber : Z) :
  rejects_with_Errors (getBlock Date_parse client blockNumber).
Proof.
  intros w reason w'. unfold getBlock.
  destruct (client_throws_Errors (mkRequest ("/v2/blocks/" +:+ pretty blockNumber) []) w)
    as (_ & Hout & _).
  destruct (get_block client _ w) as [[data|error] w0] eqn:Hget; cbn [fst] in Hout.
  - destruct data; intros [= <- _]; by eexists.
  - intros [= <- _]. by eapply catch_block_Error.
Qed.

Lemma getTransactions_rejects_with_Errors (params : TransactionsParams) :
  rejects_with_Errors (getTransactions Date_parse client params).
Proof.
  intros w reason w'. unfold getTransactions.
  match goal with
  | |- context [get_transactions client ?request w] =>
      destruct (client_throws_Errors request w) as (_ & _ & Hout & _);
      destruct (get_transactions client request w) as [[data|error] w0] eqn:Hget
  end; cbn [fst] in Hout.
  - destruct (data ≫= transactions_items); intros [= <- _]; by eexists.
  - intros [= <- _]. by eapply catch_block_Error.
Qed.

Lemma getAddress_rejects_with_Errors (address : string) :
  rejects_with_Errors (getAddress client address).
Proof.
  intros w reason w'. unfold getAddress.
  destruct (client_throws_Errors (mkRequest ("/v2/addresses/" +:+ address) []) w)
    as (_ & _ & _ & Hout).
  destruct (get_address client _ w) as [[data|error] w0] eqn:Hget; cbn [fst] in Hout.
  - destruct data; intros [= <- _]; by eexists.
  - intros [= <- _]. by eapply catch_block_Error.
Qed.

End client_rejections.

(** X23: when the HTTP layer throws Error instances only (axios errors
    among them), each of the four methods of the client rejects with an
    Error instance only, so that under the retry helper, with a budget of
    at least one, what is surfaced is the failure of the last attempt of
    the budget exactly as the method threw it. *)
Theorem client_surfaces_last_failure {W AddressInfo : Type} (Date_parse : string → option Z)
    (client : AxiosInstance W AddressInfo) (sleep : Z → W → W) :
  throws_Errors client →
  (∀ limit, surfaces_last_failure sleep (getLatestBlocks Date_parse client limit))
  ∧ (∀ blockNumber, surfaces_last_failure sleep (getBlock Date_parse client blockNumber))
  ∧ (∀ params, surfaces_last_failure sleep (getTransactions Date_parse client params))
  ∧ (∀ address, surfaces_last_failure sleep (getAddress client address)).
Proof.
  intros Hclient. split_and!; intros x; apply rejects_with_Errors_surfaces.
  - by apply getLatestBlocks_rejects_with_Errors.
  - by apply getBlock_rejects_with_Errors.
  - by apply getTransactions_rejects_with_Errors.
  - by apply getAddress_rejects_with_Errors.
Qed.

Lemma client_surfaces_last_failure_witness :
  attempt_from (fun _ w => w) (getAddress demo_client "0xabc") 1000 0 (Z.to_nat (3 - 1)) tt
  = (Rejected (ThrownError (new_Error "Rate limit exceeded. Please try again later.")), tt).
Proof.
  apply (proj2 (proj2 (proj2 (client_surfaces_last_failure demo_Date_parse demo_client
                                (fun _ w => w) ltac:(by intros request [])))) "0xabc"
           3 1000 tt _ tt [Invoke; Wait 1000; Invoke; Wait 2000; Invoke]).
  - lia.
  - reflexivity.
Defined.

(** ** Block time statistics: the average lies between the extremes *)






(** ** Amounts that are not positive are left out *)

Lemma valuesWei_cons_ignored (t : Transaction) (l : list Transaction) :
  (∀ z, StringToBigInt (or_else (value t) "0") = Some z → z ≤ 0) →
  valuesWei (t :: l) = valuesWei l.
Proof.
  intros Hz. unfold valuesWei. cbn [map]. rewrite filter_cons. unfold BigInt.
  destruct (StringToBigInt (or_else (value t) "0")) as [z|]; cbn [try_catch].
  - specialize (Hz z eq_refl). by rewrite decide_False by lia.
  - by rewrite decide_False by lia.
Qed.

Lemma gasPricesWei_cons_ignored (t : Transaction) (l : list Transaction) (z : Z) :
  StringToBigInt (or_else (gas_price t) "0") = Some z → z ≤ 0 →
  gasPricesWei (t :: l) = gasPricesWei l.
Proof.
  intros Hparse Hz. unfold gasPricesWei.
  rewrite mapM_Completion_cons, (BigInt_Some _ _ Hparse), bind_Return.
  destruct (mapM _ l) as [prices|e]; [|done].
  rewrite !bind_Return. by rewrite filter_cons, decide_False by lia.
Qed.

(** X25: a transaction whose amount is not positive changes nothing but
    [totalTransactions]. For the value statistics this holds of every
    [value] that is absent, empty, no BigInt literal, zero or negative,
    and the function returns in each case; for the gas price statistics it
    holds of every [gas_price] that is absent, empty, zero or negative,
    whenever the statistics of the other transactions are returned. *)
Theorem nonpositive_amounts_ignored (t : Transaction) (l : list Transaction) :
  ((∀ z, StringToBigInt (or_else (value t) "0") = Some z → z ≤ 0) →
   ∃ stats stats',
     computeTransactionValueStats (t :: l) = Return stats
     ∧ computeTransactionValueStats l = Return stats'
     ∧ totalValueEth stats = totalValueEth stats'
     ∧ averageValueEth stats = averageValueEth stats'
     ∧ minValueEth stats = minValueEth stats'
     ∧ maxValueEth stats = maxValueEth stats'
     ∧ value_totalTransactions stats = S (value_totalTransactions stats'))
  ∧ (∀ z stats',
       StringToBigInt (or_else (gas_price t) "0") = Some z → z ≤ 0 →
       computeAverageGasPrice l = Return stats' →
       ∃ stats,
         computeAverageGasPrice (t :: l) = Return stats
         ∧ averageGasPriceGwei stats = averageGasPriceGwei stats'
         ∧ minGasPriceGwei stats = minGasPriceGwei stats'
         ∧ maxGasPriceGwei stats = maxGasPriceGwei stats'
         ∧ gas_totalTransactions stats = S (gas_totalTransactions stats')).
Proof.
  split.
  - intros Hz. rewrite !computeTransactionValueStats_amounts, valuesWei_cons_ignored by done.
    do 2 eexists. split_and!; [done..| | | | |]; by destruct (valuesWei l).
  - intros z stats' Hparse Hz.
    rewrite !computeAverageGasPrice_amounts, (gasPricesWei_cons_ignored t l z) by done.
    destruct (gasPricesWei l) as [amounts|e]; [|done].
    rewrite !bind_Return. intros [= <-].
    eexists. split_and!; [done|..]; by destruct amounts.
Qed.

Lemma nonpositive_amounts_ignored_witness :
  (∃ stats stats',
     computeTransactionValueStats (tx "0xa" "0xb" "1.5" "7" :: [tx "0xa" "0xb" "3" "7"])
     = Return stats
     ∧ computeTransactionValueStats [tx "0xa" "0xb" "3" "7"] = Return stats'
     ∧ totalValueEth stats = totalValueEth stats'
     ∧ averageValueEth stats = averageValueEth stats'
     ∧ minValueEth stats = minValueEth stats'
     ∧ maxValueEth stats = maxValueEth stats'
     ∧ value_totalTransactions stats = S (value_totalTransactions stats'))
  ∧ (∃ stats,
       computeAverageGasPrice (tx "0xa" "0xb" "1" "-2" :: [tx "0xa" "0xb" "3" "7"])
       = Return stats
       ∧ averageGasPriceGwei stats = weiToGwei 7
       ∧ minGasPriceGwei stats = weiToGwei 7
       ∧ maxGasPriceGwei stats = weiToGwei 7
       ∧ gas_totalTransactions stats = 2%nat).
Proof.
  split.
  - apply (proj1 (nonpositive_amounts_ignored (tx "0xa" "0xb" "1.5" "7")
                    [tx "0xa" "0xb" "3" "7"])).
    intros z Hz. discriminate Hz.
  - apply (proj2 (nonpositive_amounts_ignored (tx "0xa" "0xb" "1" "-2")
                    [tx "0xa" "0xb" "3" "7"])
             (-2) (mkGasPriceStats (weiToGwei 7) (weiToGwei 7) (weiToGwei 7) 1));
      [reflexivity | lia | reflexivity].
Defined.

(** ** [main] gives a block up after three attempts only *)


Section main_warnings.

Context {W : Type}.
Variable sleep : Z → W → W.
Variable getTransactions : Z → Z → Async W (list Transaction).

Local Abbreviation three_attempts := [Invoke; Wait 1000; Invoke; Wait 2000; Invoke].



End main_warnings.


